(** * Three-phase commutation engine of the tubular linear actuator

    A shallow embedding of the three CircuitPython control scripts

      - [code/circuitpython/code.py]            (module [Angle]:  position in radians),
      - [code/circuitpython/sine/code.py]       (module [Sine]:   position in degrees),
      - [code/circuitpython/step_table/code.py] (module [StepTable]: fractional table index),

    followed by the properties of the position tracker, the waveform
    generators and the phase output driver.

    Numbers.  Python floats are idealised as exact numbers: rationals [Q]
    in the table script, whose arithmetic is rational, so that the model
    runs; reals [R] in the two cosine scripts.  Python integers are [Z].
    The code computes on binary64 doubles: general statements are proved
    over the exact numbers, and describe the formulas the code computes;
    where the rounding of the doubles would decide a property of the
    position (a sum rounding onto the end of a range) the statement is
    worded to hold on doubles too.  Module [Binary64] has the position
    arithmetic on doubles themselves, to replay the code bit for bit at
    concrete inputs.

    Effects.  The six module-level [pwmio.PWMOut] objects are one shared
    [board]; every assignment to a [duty_cycle] and every [time.sleep] is
    also appended to the board's log, oldest event first.  An assignment
    to a [duty_cycle] always succeeds here (the range check of [pwmio]
    is not part of the scripts).  [print] calls, and the values computed
    only to be printed, write to the console only and are left out.  The
    demonstration loops under [__main__] never end by themselves and are
    modelled up to a number of completed iterations. *)

From Stdlib Require Import ZArith QArith Qround Reals Psatz Lia List Bool.
From Stdlib Require Import PrimFloat.
Import ListNotations.

(* ===================================================================== *)
(** ** The PWM outputs shared by the three scripts                        *)
(* ===================================================================== *)

Module Board.

(** The six [pwmio.PWMOut] objects created at import time
    (high and low side of the phases A, B and C). *)
Inductive pwm : Set := pwm_ah | pwm_al | pwm_bh | pwm_bl | pwm_ch | pwm_cl.

Definition pwm_eqb (p q : pwm) : bool :=
  match p, q with
  | pwm_ah, pwm_ah | pwm_al, pwm_al | pwm_bh, pwm_bh
  | pwm_bl, pwm_bl | pwm_ch, pwm_ch | pwm_cl, pwm_cl => true
  | _, _ => false
  end.

(** What the outside world observes: a duty-cycle write or a pause. *)
Inductive event : Set :=
| DutyCycle (p : pwm) (d : Z)
| Sleep (seconds : Q).

Record board : Set := mkBoard {
  ah : Z; al : Z; bh : Z; bl : Z; ch : Z; cl : Z;
  log : list event
}.

(** [p.duty_cycle] *)
Definition duty_cycle (p : pwm) (b : board) : Z :=
  match p with
  | pwm_ah => ah b | pwm_al => al b
  | pwm_bh => bh b | pwm_bl => bl b
  | pwm_ch => ch b | pwm_cl => cl b
  end.

Definition store (p : pwm) (d : Z) (b : board) : board :=
  match p with
  | pwm_ah => mkBoard d (al b) (bh b) (bl b) (ch b) (cl b) (log b)
  | pwm_al => mkBoard (ah b) d (bh b) (bl b) (ch b) (cl b) (log b)
  | pwm_bh => mkBoard (ah b) (al b) d (bl b) (ch b) (cl b) (log b)
  | pwm_bl => mkBoard (ah b) (al b) (bh b) d (ch b) (cl b) (log b)
  | pwm_ch => mkBoard (ah b) (al b) (bh b) (bl b) d (cl b) (log b)
  | pwm_cl => mkBoard (ah b) (al b) (bh b) (bl b) (ch b) d (log b)
  end.

Definition record (e : event) (b : board) : board :=
  mkBoard (ah b) (al b) (bh b) (bl b) (ch b) (cl b) (log b ++ [e]).

(** The effect of one observed event on the duty cycles (the log is
    left alone): used to replay a log. *)
Definition replay1 (b : board) (e : event) : board :=
  match e with
  | DutyCycle p d => store p d b
  | Sleep _ => b
  end.

Definition replay (es : list event) (b : board) : board :=
  fold_left replay1 es b.

(** Board at import time: every output created with [duty_cycle=0]. *)
Definition power_on : board := mkBoard 0 0 0 0 0 0 [].

(** A small state monad over the board. *)
Definition IO (A : Type) : Type := board -> A * board.

Definition ret {A} (a : A) : IO A := fun b => (a, b).

Definition bind {A B} (c : IO A) (k : A -> IO B) : IO B :=
  fun b => let (a, b') := c b in k a b'.

Definition exec {A} (c : IO A) (b : board) : board := snd (c b).
Definition eval {A} (c : IO A) (b : board) : A := fst (c b).

(** [p.duty_cycle = d] *)
Definition set_duty_cycle (p : pwm) (d : Z) : IO unit :=
  fun b => (tt, record (DutyCycle p d) (store p d b)).

(** [time.sleep(seconds)] *)
Definition sleep (seconds : Q) : IO unit :=
  fun b => (tt, record (Sleep seconds) b).

(** The events a computation adds to the log of [b]. *)
Definition emitted {A} (c : IO A) (b : board) : list event :=
  skipn (length (log b)) (log (exec c b)).

(** [output_off]: the same six assignments in the three scripts. *)
Definition output_off : IO unit :=
  bind (set_duty_cycle pwm_ah 0) (fun _ =>
  bind (set_duty_cycle pwm_al 0) (fun _ =>
  bind (set_duty_cycle pwm_bh 0) (fun _ =>
  bind (set_duty_cycle pwm_bl 0) (fun _ =>
  bind (set_duty_cycle pwm_ch 0) (fun _ =>
       (set_duty_cycle pwm_cl 0)))))).

Definition all_off (b : board) : Prop :=
  forall p, duty_cycle p b = 0%Z.

(** At most one side of a phase is commanded on. *)
Definition one_side_off (high low : pwm) (b : board) : Prop :=
  duty_cycle high b = 0%Z \/ duty_cycle low b = 0%Z.

End Board.

Import Board.

Declare Scope io_scope.
Delimit Scope io_scope with io.
Notation "x <- c ;; k" := (bind c (fun x => k))
  (at level 61, c at next level, right associativity) : io_scope.
Notation "c ;; k" := (bind c (fun _ => k))
  (at level 61, right associativity) : io_scope.

(* ===================================================================== *)
(** ** A dead-time monitor for one half-bridge                            *)
(* ===================================================================== *)

Module Monitor.

(** What an observer of one phase knows: the commanded duty of each
    side and for how long (in slept seconds) each side has been off. *)
Record half_bridge : Set := mkBridge {
  high_duty : Z; low_duty : Z;
  high_rest : Q; low_rest : Q
}.

Definition both_on (m : half_bridge) : bool :=
  negb (high_duty m =? 0)%Z && negb (low_duty m =? 0)%Z.

Definition watch (b : board) (high low : pwm) : half_bridge :=
  mkBridge (duty_cycle high b) (duty_cycle low b) 0 0.

(** Both rest times are sums of sleeps. *)
Definition rested (m : half_bridge) : Prop :=
  (0 <= high_rest m)%Q /\ (0 <= low_rest m)%Q.

(** One observed event.  [None] is a violation: a side is energised
    while the other side is on, or has been off for less than
    [dead_time]. *)
Definition advance (dead_time : Q) (high low : pwm)
           (m : half_bridge) (e : event) : option half_bridge :=
  match e with
  | Sleep t =>
      Some (mkBridge (high_duty m) (low_duty m)
                     (high_rest m + t) (low_rest m + t))
  | DutyCycle p d =>
      if pwm_eqb p high then
        if (d =? 0)%Z then
          Some (mkBridge 0 (low_duty m)
                         (if (high_duty m =? 0)%Z then high_rest m else 0)
                         (low_rest m))
        else if (low_duty m =? 0)%Z && Qle_bool dead_time (low_rest m) then
          Some (mkBridge d (low_duty m) 0 (low_rest m))
        else None
      else if pwm_eqb p low then
        if (d =? 0)%Z then
          Some (mkBridge (high_duty m) 0 (high_rest m)
                         (if (low_duty m =? 0)%Z then low_rest m else 0))
        else if (high_duty m =? 0)%Z && Qle_bool dead_time (high_rest m) then
          Some (mkBridge (high_duty m) d (high_rest m) 0)
        else None
      else Some m
  end.

(** The same, and it is also a violation to be left with both sides
    commanded on. *)
Definition observe (dead_time : Q) (high low : pwm)
           (m : half_bridge) (e : event) : option half_bridge :=
  match advance dead_time high low m e with
  | Some m' => if both_on m' then None else Some m'
  | None => None
  end.

Fixpoint run (dead_time : Q) (high low : pwm)
         (m : half_bridge) (es : list event) : option half_bridge :=
  match es with
  | [] => Some m
  | e :: es' =>
      match observe dead_time high low m e with
      | Some m' => run dead_time high low m' es'
      | None => None
      end
  end.

Definition accepts (dead_time : Q) (high low : pwm)
           (m : half_bridge) (es : list event) : bool :=
  match run dead_time high low m es with Some _ => true | None => false end.

End Monitor.

(* ===================================================================== *)
(** ** What the two cosine scripts have in common                         *)
(* ===================================================================== *)

Module Cosine.

Local Open Scope R_scope.

(** Python's [int] on a float: the fractional part is dropped
    (truncation towards zero). *)
Definition int (x : R) : Z :=
  if Rle_dec 0 x then Int_part x else (- Int_part (- x))%Z.

Section Constants.

(** [PWM_MAX] and [DEAD_TIME], module constants of each script. *)
Variable PWM_MAX : Z.
Variable DEAD_TIME : Q.

(** [apply_phase(self, high_pwm, low_pwm, value)]:
    code.py lines 38-49 and sine/code.py lines 45-56, which are the
    same text. *)
Definition apply_phase (high_pwm low_pwm : pwm) (value : R) : IO unit :=
  if Rle_dec 0 value then
    (set_duty_cycle low_pwm 0 ;;
     sleep DEAD_TIME ;;
     set_duty_cycle high_pwm (int (value * IZR PWM_MAX)))%io
  else
    (set_duty_cycle high_pwm 0 ;;
     sleep DEAD_TIME ;;
     set_duty_cycle low_pwm (int (- value * IZR PWM_MAX)))%io.

End Constants.

(** The wrap at the end of [step]: code.py lines 58-62 with a period
    of [2 * math.pi], sine/code.py lines 65-69 with a period of 360.
    One conditional correction, upwards or downwards. *)
Definition wrap (period x : R) : R :=
  if Rle_dec period x then x - period
  else if Rlt_dec x 0 then x + period
  else x.

(** The three phase values of [update], 120 degrees apart. *)
Definition phases (offset radians : R) : R * R * R :=
  (cos radians, cos (radians - offset), cos (radians + offset)).

End Cosine.

(* ===================================================================== *)
(** ** code/circuitpython/code.py                                         *)
(* ===================================================================== *)

Module Angle.

Local Open Scope R_scope.

Definition PWM_MAX : Z := 65535.
Definition DEAD_TIME : Q := 1 # 1000000.
Definition PHASE_ANGLE : R := 2 * PI / 3.

Record LinearActuator : Type := mkActuator {
  angle : R;
  direction : bool;
  step_increment : R;
  running : bool
}.

(** [__init__], lines 22-27 ([running = 1] is truthy). *)
Definition init : IO LinearActuator :=
  (output_off ;; ret (mkActuator 0 true (5 / 100) true))%io.

(** The constants of lines 16-18 as the module holds them when the
    class is used: module-level names, which an edit of the script or an
    assignment from outside can set to any value. *)
Record constants : Set := mkConstants {
  c_PWM_MAX : Z;
  c_DEAD_TIME : Q
}.

(** How [LinearActuator()] can end: with the object, or with the
    ConfigurationError that the specification names. *)
Inductive construction : Type :=
| Constructed (self : LinearActuator)
| ConfigurationError.

(** [LinearActuator()] in a module whose constants are [c].  It is
    [__init__]: the constructor takes no argument, reads none of the
    constants and has no [raise]. *)
Definition construct (c : constants) : IO construction :=
  (self <- init ;; ret (Constructed self))%io.

Definition apply_phase : pwm -> pwm -> R -> IO unit :=
  Cosine.apply_phase PWM_MAX DEAD_TIME.

Definition set_angle (self : LinearActuator) (a : R) : LinearActuator :=
  mkActuator a (direction self) (step_increment self) (running self).

Definition set_running (self : LinearActuator) (r : bool) : LinearActuator :=
  mkActuator (angle self) (direction self) (step_increment self) r.

(** [step(self, direction)], lines 51-62. *)
Definition step (self : LinearActuator) (direction : Z) : LinearActuator :=
  let moved :=
    if (0 <? direction)%Z then angle self + step_increment self
    else angle self - step_increment self in
  set_angle self (Cosine.wrap (2 * PI) moved).

Definition next_step (self : LinearActuator) : LinearActuator := step self 1.
Definition previous_step (self : LinearActuator) : LinearActuator := step self (-1).

(** The phase values computed on lines 81-84. *)
Definition phase_values (self : LinearActuator) : R * R * R :=
  Cosine.phases PHASE_ANGLE (angle self).

(** [update(self)], lines 72-89 (lines 78-79 only print). *)
Definition update (self : LinearActuator) : IO unit :=
  if negb (running self) then output_off
  else
    let '(phase_a, phase_b, phase_c) := phase_values self in
    (apply_phase pwm_ah pwm_al phase_a ;;
     apply_phase pwm_bh pwm_bl phase_b ;;
     apply_phase pwm_ch pwm_cl phase_c)%io.

(** [start(self)] *)
Definition start (self : LinearActuator) : IO LinearActuator :=
  ret (set_running self true).

(** [stop(self)] *)
Definition stop (self : LinearActuator) : IO LinearActuator :=
  (output_off ;; ret (set_running self false))%io.

End Angle.

(* ===================================================================== *)
(** ** code/circuitpython/sine/code.py                                    *)
(* ===================================================================== *)

Module Sine.

Local Open Scope R_scope.

Definition PWM_MAX : Z := 65535.
Definition DEAD_TIME : Q := 1 # 1000000.
Definition PHASE_OFFSET : R := 2 * PI / 3.
Definition DEGREE_TO_RADIAN_MULTIPLIER : R := PI / 180.
Definition DIRECTION_FORWARDS : Z := 1.
Definition DIRECTION_BACKWARDS : Z := -1.

Record LinearActuator : Type := mkActuator {
  running : bool;
  degrees : R;
  step_increment : R;
  direction : Z
}.

(** [__init__], lines 29-34. *)
Definition init : IO LinearActuator :=
  (output_off ;; ret (mkActuator true 0 (5 / 10) DIRECTION_FORWARDS))%io.

Definition apply_phase : pwm -> pwm -> R -> IO unit :=
  Cosine.apply_phase PWM_MAX DEAD_TIME.

Definition set_degrees (self : LinearActuator) (d : R) : LinearActuator :=
  mkActuator (running self) d (step_increment self) (direction self).

Definition set_running (self : LinearActuator) (r : bool) : LinearActuator :=
  mkActuator r (degrees self) (step_increment self) (direction self).

(** [step(self, direction)], lines 58-69. *)
Definition step (self : LinearActuator) (direction : Z) : LinearActuator :=
  let moved :=
    if (direction =? DIRECTION_FORWARDS)%Z then degrees self + step_increment self
    else degrees self - step_increment self in
  set_degrees self (Cosine.wrap 360 moved).

Definition next_step (self : LinearActuator) : LinearActuator := step self 1.
Definition previous_step (self : LinearActuator) : LinearActuator := step self (-1).

(** The phase values computed on lines 87-91. *)
Definition phase_values (self : LinearActuator) : R * R * R :=
  let radians := degrees self * DEGREE_TO_RADIAN_MULTIPLIER in
  Cosine.phases PHASE_OFFSET radians.

(** [update(self)], lines 79-96 (line 85 only prints). *)
Definition update (self : LinearActuator) : IO unit :=
  if negb (running self) then output_off
  else
    let '(phase_a, phase_b, phase_c) := phase_values self in
    (apply_phase pwm_ah pwm_al phase_a ;;
     apply_phase pwm_bh pwm_bl phase_b ;;
     apply_phase pwm_ch pwm_cl phase_c)%io.

Definition start (self : LinearActuator) : IO LinearActuator :=
  ret (set_running self true).

Definition stop (self : LinearActuator) : IO LinearActuator :=
  (output_off ;; ret (set_running self false))%io.

End Sine.

(* ===================================================================== *)
(** ** code/circuitpython/step_table/code.py                              *)
(* ===================================================================== *)

(** [normalize_step] is called on the float position and on the integer
    indices alike; the operations it needs of either kind of number. *)
Class PyNumber (A : Type) : Type := {
  of_int : Z -> A;
  add : A -> A -> A;
  sub : A -> A -> A;
  ge : A -> A -> bool;
  lt : A -> A -> bool
}.

#[export] Instance PyNumber_int : PyNumber Z := {|
  of_int := fun z => z;
  add := Z.add;
  sub := Z.sub;
  ge := Z.geb;
  lt := Z.ltb
|}.

#[export] Instance PyNumber_float : PyNumber Q := {|
  of_int := inject_Z;
  add := Qplus;
  sub := Qminus;
  ge := fun x y => Qle_bool y x;
  lt := fun x y => negb (Qle_bool y x)
|}.

Module StepTable.

Local Open Scope Q_scope.

Definition PWM_MAX : Z := 65535.
Definition DEAD_TIME : Q := 1 # 1000000.
Definition DIRECTION_FORWARDS : Z := 1.
Definition DIRECTION_BACKWARDS : Z := -1.

Definition row : Set := (Z * Z * Z)%type.

Definition STEPS : list row := [
  (25, 0, -75); (50, 0, -50); (75, 0, -25); (100, 0, 0);
  (75, 25, 0); (50, 50, 0); (25, 75, 0); (0, 100, 0);
  (0, 75, 25); (0, 50, 50); (0, 25, 75); (0, 0, 100);
  (-25, 0, 75); (-50, 0, 50); (-75, 0, 25); (-100, 0, 0);
  (-75, -25, 0); (-50, -50, 0); (-25, -75, 0); (0, -100, 0);
  (0, -75, -25); (0, -50, -50); (0, -25, -75); (0, 0, -100)
]%Z.

Definition len {A} (l : list A) : Z := Z.of_nat (length l).

Definition NUM_STEPS : Z := len STEPS.

(** Python's [l[i]]: a negative index counts from the end; outside
    [-len(l) .. len(l)-1] it raises [IndexError] (here [None]). *)
Definition getitem {A} (l : list A) (i : Z) : option A :=
  if ((0 <=? i) && (i <? len l))%Z then nth_error l (Z.to_nat i)
  else if ((- len l <=? i) && (i <? 0))%Z then nth_error l (Z.to_nat (len l + i))
  else None.

(** Python's [int] on a float: truncation towards zero. *)
Definition int (x : Q) : Z := Z.quot (Qnum x) (Zpos (Qden x)).

Record LinearActuator : Set := mkActuator {
  running : bool;
  current_step : Q;
  last_step : Q;
  step_increment : Q;
  direction : Z
}.

(** [__init__], lines 57-63 ([running = 1] is truthy). *)
Definition init : IO LinearActuator :=
  (output_off ;;
   ret (mkActuator true 1 (-1) (1 # 10) DIRECTION_FORWARDS))%io.

(** The constants of lines 19-54 as the module holds them when the
    class is used: module-level names, which an edit of the script or an
    assignment from outside can set to any value. *)
Record constants : Set := mkConstants {
  c_PWM_MAX : Z;
  c_DEAD_TIME : Q;
  c_STEPS : list row
}.

(** How [LinearActuator()] can end: with the object, or with the
    ConfigurationError that the specification names. *)
Inductive construction : Set :=
| Constructed (self : LinearActuator)
| ConfigurationError.

(** [LinearActuator()] in a module whose constants are [c].  It is
    [__init__]: the constructor takes no argument, reads none of the
    constants and has no [raise]. *)
Definition construct (c : constants) : IO construction :=
  (self <- init ;; ret (Constructed self))%io.

(** [apply_phase(self, high_pwm, low_pwm, value)], lines 74-86;
    [value] is on the table's scale of -100 .. 100. *)
Definition apply_phase (high_pwm low_pwm : pwm) (value : Q) : IO unit :=
  let multiplier := value / 100 in
  if Qle_bool 0 value then
    (set_duty_cycle low_pwm 0 ;;
     sleep DEAD_TIME ;;
     set_duty_cycle high_pwm (int (multiplier * inject_Z PWM_MAX)))%io
  else
    (set_duty_cycle high_pwm 0 ;;
     sleep DEAD_TIME ;;
     set_duty_cycle low_pwm (int (-1 * multiplier * inject_Z PWM_MAX)))%io.

(** [normalize_step(self, idx)], lines 88-94. *)
Definition normalize_step {A} `{PyNumber A} (idx : A) : A :=
  if ge idx (of_int NUM_STEPS) then sub idx (of_int NUM_STEPS)
  else if lt idx (of_int 0) then add idx (of_int NUM_STEPS)
  else idx.

(** [interpolate_value(self, from_value, to_value, percent)],
    lines 96-105. *)
Definition interpolate_value (from_value to_value percent : Q) : Q :=
  if Qeq_bool from_value to_value then to_value
  else if Qle_bool percent 0 then from_value
  else if Qle_bool 1 percent then to_value
  else
    let diff := to_value - from_value in
    (percent * diff) + from_value.

(** Lines 113-119 of [step]: the position is advanced and wrapped. *)
Definition advance (self : LinearActuator) : LinearActuator :=
  let moved :=
    if (direction self =? DIRECTION_FORWARDS)%Z
    then current_step self + step_increment self
    else current_step self - step_increment self in
  mkActuator (running self) (normalize_step moved) (current_step self)
             (step_increment self) (direction self).

(** Lines 121-132: [(from_idx, to_idx, progress)] before the indices
    are wrapped.  The initial values of lines 122-124 are overwritten
    in both branches. *)
Definition bracket (position : Q) (direction : Z) : Z * Z * Q :=
  if (direction =? DIRECTION_FORWARDS)%Z then
    let from_idx := Qfloor position in
    let to_idx := Qceiling position in
    (from_idx, to_idx, 1 - (inject_Z to_idx - position))
  else
    let from_idx := Qceiling position in
    let to_idx := Qfloor position in
    (from_idx, to_idx, 1 - (position - inject_Z to_idx)).

(** Lines 135-136: the two indices handed to [STEPS[...]]. *)
Definition lookup_indices (position : Q) (direction : Z) : Z * Z :=
  let '(from_idx, to_idx, _) := bracket position direction in
  (normalize_step from_idx, normalize_step to_idx).

Definition interpolate_row (from_row to_row : row) (progress : Q) : Q * Q * Q :=
  let '(from_a, from_b, from_c) := from_row in
  let '(to_a, to_b, to_c) := to_row in
  (interpolate_value (inject_Z from_a) (inject_Z to_a) progress,
   interpolate_value (inject_Z from_b) (inject_Z to_b) progress,
   interpolate_value (inject_Z from_c) (inject_Z to_c) progress).

(** Lines 121-142: the phase values at a position; [None] when a
    table lookup raises [IndexError]. *)
Definition phase_values (position : Q) (direction : Z) : option (Q * Q * Q) :=
  let '(_, _, progress) := bracket position direction in
  let '(from_idx, to_idx) := lookup_indices position direction in
  match getitem STEPS from_idx with
  | None => None
  | Some from_row =>
      match getitem STEPS to_idx with
      | None => None
      | Some to_row => Some (interpolate_row from_row to_row progress)
      end
  end.

(** How a call ends. *)
Inductive completion : Set := Returned | IndexError.

(** [step(self)], lines 107-151 (lines 144-146 only print). *)
Definition step (self : LinearActuator) : IO (LinearActuator * completion) :=
  if negb (running self) then
    (output_off ;; ret (self, Returned))%io
  else
    let self' := advance self in
    match phase_values (current_step self') (direction self') with
    | None => ret (self', IndexError)
    | Some (phase_a, phase_b, phase_c) =>
        (apply_phase pwm_ah pwm_al phase_a ;;
         apply_phase pwm_bh pwm_bl phase_b ;;
         apply_phase pwm_ch pwm_cl phase_c ;;
         ret (self', Returned))%io
    end.

Definition set_running (self : LinearActuator) (r : bool) : LinearActuator :=
  mkActuator r (current_step self) (last_step self)
             (step_increment self) (direction self).

(** [start(self)] *)
Definition start (self : LinearActuator) : IO LinearActuator :=
  ret (set_running self true).

(** [stop(self)] *)
Definition stop (self : LinearActuator) : IO LinearActuator :=
  (output_off ;; ret (set_running self false))%io.

End StepTable.

(* ===================================================================== *)
(** ** The position arithmetic on binary64 doubles                        *)
(* ===================================================================== *)

Module Binary64.

Local Open Scope float_scope.

(** [2 * math.pi] *)
Definition two_pi : float := 0x1.921fb54442d18p+2.

(** The step increments of the three constructors: [.05], [.5], [.1]. *)
Definition angle_increment : float := 0x1.999999999999ap-5.
Definition degrees_increment : float := 0.5.
Definition table_increment : float := 0x1.999999999999ap-4.

(** The wrap of the three scripts on doubles: code.py lines 58-62 with
    the period [two_pi], sine/code.py lines 65-69 with 360,
    [normalize_step] of step_table/code.py with 24. *)
Definition wrap (period x : float) : float :=
  if period <=? x then x - period
  else if x <? 0 then x + period
  else x.

(** The position after [step] of code.py, lines 51-62. *)
Definition angle_step (angle step_increment : float) (direction : Z) : float :=
  wrap two_pi
       (if (0 <? direction)%Z then angle + step_increment
        else angle - step_increment).

(** The position after [step] of sine/code.py, lines 58-69. *)
Definition degrees_step (degrees step_increment : float) (direction : Z) : float :=
  wrap 360
       (if (direction =? 1)%Z then degrees + step_increment
        else degrees - step_increment).

(** The position after lines 113-119 of [step] of step_table/code.py. *)
Definition table_advance (current_step step_increment : float) (direction : Z)
  : float :=
  wrap 24
       (if (direction =? 1)%Z then current_step + step_increment
        else current_step - step_increment).

(** [0 <= x < period] and [0 <= x <= period] on doubles. *)
Definition in_cycle (period x : float) : bool :=
  (0 <=? x) && (x <? period).

Definition in_closed_cycle (period x : float) : bool :=
  (0 <=? x) && (x <=? period).

(** The angle, direction and step count of the loop of code.py (lines
    112-118) after [n] iterations, with its reversal period of 251. *)
Fixpoint angle_loop (n : nat) (st : float * Z * Z) : float * Z * Z :=
  match n with
  | O => st
  | S n' =>
      let '(angle, direction, steps) := st in
      let angle := angle_step angle angle_increment direction in
      let steps := (steps + 1)%Z in
      let direction :=
        if (steps mod 251 =? 0)%Z then (direction * -1)%Z else direction in
      angle_loop n' (angle, direction, steps)
  end.

End Binary64.

(* ===================================================================== *)
(** ** Notions of the specification the code is compared with            *)
(* ===================================================================== *)

(** The spec's [round]: [z] is an integer nearest to [x], whatever the
    rule for ties. *)
Definition spec_round (x : R) (z : Z) : Prop :=
  (Rabs (x - IZR z) <= 1 / 2)%R.

(* ===================================================================== *)
(** ** Sequences of calls                                                *)
(* ===================================================================== *)

(** [apply(v1); apply(v2); ...] on one phase, in this order. *)
Fixpoint apply_each {V : Type} (apply : V -> IO unit) (values : list V) : IO unit :=
  match values with
  | [] => ret tt
  | v :: rest => (apply v ;; apply_each apply rest)%io
  end.

(** The three events of one switch-over. *)
Definition switch_over (dead_time : Q) (off on : pwm) (d : Z) : list event :=
  [DutyCycle off 0; Sleep dead_time; DutyCycle on d].

(** What one [apply_phase] of the cosine scripts adds to the log. *)
Definition cosine_events (M : Z) (D : Q) (high low : pwm) (value : R) : list event :=
  if Rle_dec 0 value
  then switch_over D low high (Cosine.int (value * IZR M))
  else switch_over D high low (Cosine.int (- value * IZR M)).

(** What one [apply_phase] of the table script adds to the log. *)
Definition table_events (high low : pwm) (value : Q) : list event :=
  if Qle_bool 0 value
  then switch_over StepTable.DEAD_TIME low high
         (StepTable.int (value / 100 * inject_Z StepTable.PWM_MAX))
  else switch_over StepTable.DEAD_TIME high low
         (StepTable.int (-1 * (value / 100) * inject_Z StepTable.PWM_MAX)).

(** A call made on a stopped actuator. *)
Inductive idle_call : Set := CallStop | CallTick.

Fixpoint idle_calls {S : Type} (stop tick : S -> IO S)
         (calls : list idle_call) (self : S) : IO S :=
  match calls with
  | [] => ret self
  | c :: rest =>
      (self' <- match c with CallStop => stop self | CallTick => tick self end ;;
       idle_calls stop tick rest self')%io
  end.

(** The tick of each script, returning the actuator it leaves. *)
Definition angle_tick (self : Angle.LinearActuator) : IO Angle.LinearActuator :=
  (Angle.update self ;; ret self)%io.

Definition sine_tick (self : Sine.LinearActuator) : IO Sine.LinearActuator :=
  (Sine.update self ;; ret self)%io.

Definition table_tick (self : StepTable.LinearActuator) : IO StepTable.LinearActuator :=
  (r <- StepTable.step self ;; ret (fst r))%io.

(* ===================================================================== *)
(** ** The demonstration loops under [__main__]                          *)
(* ===================================================================== *)

(** What the [except Exception] clause of a loop can catch. *)
Inductive exception : Set := PyIndexError | PyZeroDivisionError.

(** [while True: body], cut after [n] completed iterations (the loop
    only ends by an exception or by an interrupt from outside). *)
Fixpoint while_true {St : Type} (n : nat)
         (body : St -> IO (St * option exception)) (st : St)
  : IO (St * option exception) :=
  match n with
  | O => ret (st, None)
  | S n' =>
      (r <- body st ;;
       match snd r with
       | None => while_true n' body (fst r)
       | Some _ => ret r
       end)%io
  end.

(** Python's [round] on a float: the nearest integer, a tie going to
    the even one. *)
Definition round_real (x : R) : Z :=
  let f := Int_part x in
  if Rlt_dec (x - IZR f) (1 / 2) then f
  else if Rlt_dec (1 / 2) (x - IZR f) then (f + 1)%Z
  else if Z.even f then f else (f + 1)%Z.


(** The body of the loop of the two cosine scripts (code.py lines
    113-121, sine/code.py lines 120-128); the loop variables are the
    actuator, [direction] and [steps].  [steps % target_cycle] raises
    when [target_cycle] is 0. *)
Definition cosine_body {S : Type} (step : S -> Z -> S) (update : S -> IO unit)
           (target_cycle : Z) (pause : Q) (st : S * Z * Z)
  : IO (S * Z * Z * option exception) :=
  let '(actuator, direction, steps) := st in
  let actuator := step actuator direction in
  (update actuator ;;
   let steps := (steps + 1)%Z in
   if (target_cycle =? 0)%Z
   then ret (actuator, direction, steps, Some PyZeroDivisionError)
   else
     let direction :=
       if (steps mod target_cycle =? 0)%Z then (direction * -1)%Z else direction in
     (sleep pause ;; ret (actuator, direction, steps, None)))%io.

(** code.py lines 103-121: what precedes the [finally] clause, with the
    loop cut after [n] iterations. *)
Definition angle_target_cycle (actuator : Angle.LinearActuator) : Z :=
  let full_cycle := (2 * PI / Angle.step_increment actuator)%R in
  round_real (full_cycle * 2).

Definition angle_loop (n : nat)
  : IO (Angle.LinearActuator * Z * Z * option exception) :=
  (actuator <- Angle.init ;;
   actuator <- Angle.start actuator ;;
   Angle.update actuator ;;
   while_true n
     (cosine_body Angle.step Angle.update (angle_target_cycle actuator) (1 # 100))
     (actuator, 1%Z, 0%Z))%io.

(** code.py lines 102-127: the [except] clause only prints, the
    [finally] clause stops the actuator. *)
Definition angle_main (n : nat) : IO Angle.LinearActuator :=
  (r <- angle_loop n ;;
   Angle.stop (fst (fst (fst r))))%io.

(** sine/code.py lines 110-128. *)
Definition sine_target_cycle (actuator : Sine.LinearActuator) : Z :=
  let full_cycle := (360 / Sine.step_increment actuator)%R in
  round_real (full_cycle * (15 / 10)).

Definition sine_loop (n : nat)
  : IO (Sine.LinearActuator * Z * Z * option exception) :=
  (actuator <- Sine.init ;;
   actuator <- Sine.start actuator ;;
   Sine.update actuator ;;
   while_true n
     (cosine_body Sine.step Sine.update (sine_target_cycle actuator) (1 # 10000))
     (actuator, 1%Z, 0%Z))%io.

(** sine/code.py lines 109-134. *)
Definition sine_main (n : nat) : IO Sine.LinearActuator :=
  (r <- sine_loop n ;;
   Sine.stop (fst (fst (fst r))))%io.






(** What holds of the loop variables of a cosine script after [k]
    iterations, for a reversal period [T] and a property [Good] of the
    actuator that steps keep. *)
Definition cosine_loop_invariant (S : Type) (T : Z) (Good : S -> Prop)
           (k : nat) (st : S * Z * Z) : Prop :=
  let '(actuator, direction, steps) := st in
  Good actuator
  /\ steps = Z.of_nat k
  /\ direction = (if Z.even (Z.of_nat k / T) then 1 else -1)%Z.


(** The duty cycles an event may carry: [0 .. ceiling]. *)
Definition duty_in_range (ceiling : Z) (e : event) : Prop :=
  match e with
  | DutyCycle _ d => (0 <= d <= ceiling)%Z
  | Sleep _ => True
  end.

(* ===================================================================== *)
(** ** Properties: position normalisation                                 *)
(* ===================================================================== *)

Lemma NUM_STEPS_is_24 : StepTable.NUM_STEPS = 24%Z.
Proof. reflexivity. Qed.

(** The three branches of [normalize_step] on a float. *)
Lemma normalize_step_float_cases (x : Q) :
  (inject_Z StepTable.NUM_STEPS <= x
   /\ StepTable.normalize_step x = x - inject_Z StepTable.NUM_STEPS)%Q
  \/ (x < 0 /\ StepTable.normalize_step x = x + inject_Z StepTable.NUM_STEPS)%Q
  \/ (0 <= x /\ x < inject_Z StepTable.NUM_STEPS
      /\ StepTable.normalize_step x = x)%Q.
Proof.
  unfold StepTable.normalize_step; cbn [ge lt sub add of_int PyNumber_float].
  destruct (Qle_bool (inject_Z StepTable.NUM_STEPS) x) eqn:Hge.
  - left. apply Qle_bool_iff in Hge. split; [exact Hge | reflexivity].
  - assert (Hlt : (x < inject_Z StepTable.NUM_STEPS)%Q).
    { apply Qnot_le_lt. intro H. apply Qle_bool_iff in H. congruence. }
    destruct (Qle_bool (inject_Z 0) x) eqn:Hneg; cbn [negb].
    + right; right. apply Qle_bool_iff in Hneg. repeat split; assumption.
    + right; left. split; [| reflexivity].
      apply Qnot_le_lt. intro H.
      assert (Hb : Qle_bool (inject_Z 0) x = true) by (apply Qle_bool_iff; exact H).
      congruence.
Qed.

(** The three branches of [normalize_step] on an integer index. *)
Lemma normalize_step_int_cases (i : Z) :
  (StepTable.NUM_STEPS <= i /\ StepTable.normalize_step i = i - StepTable.NUM_STEPS)%Z
  \/ (i < 0 /\ StepTable.normalize_step i = i + StepTable.NUM_STEPS)%Z
  \/ (0 <= i < StepTable.NUM_STEPS /\ StepTable.normalize_step i = i)%Z.
Proof.
  unfold StepTable.normalize_step; cbn [ge lt sub add of_int PyNumber_int].
  rewrite Z.geb_leb.
  destruct (Z.leb_spec StepTable.NUM_STEPS i); [left; lia |].
  destruct (Z.ltb_spec i 0); [right; left; lia | right; right; lia].
Qed.

(** The three branches of the wrap of the cosine scripts. *)
Lemma wrap_cases (period x : R) :
  (period <= x /\ Cosine.wrap period x = x - period)%R
  \/ (x < period /\ x < 0 /\ Cosine.wrap period x = x + period)%R
  \/ (0 <= x < period /\ Cosine.wrap period x = x)%R.
Proof.
  unfold Cosine.wrap.
  destruct (Rle_dec period x); [left; split; [assumption | reflexivity] |].
  destruct (Rlt_dec x 0); [right; left | right; right]; repeat split; try lra.
Qed.

Lemma two_PI_bounds : (6 < 2 * PI <= 8)%R.
Proof.
  pose proof PI2_3_2. pose proof PI_4. lra.
Qed.


Lemma wrap_range (period x : R) :
  (0 < period ->
   (- period <= x < 2 * period <-> 0 <= Cosine.wrap period x < period))%R.
Proof.
  intro Hp.
  destruct (wrap_cases period x) as [[H E] | [[H [H' E]] | [H E]]];
    rewrite E; lra.
Qed.

(** C1, as stated, fails: the position 48 of the 24-row table is
    normalised to 24, which is not below the period. *)
Lemma normalize_step_48_out_of_range :
  ~ (0 <= StepTable.normalize_step (48 # 1)
     /\ StepTable.normalize_step (48 # 1) < inject_Z StepTable.NUM_STEPS)%Q.
Proof.
  intros [_ H]. vm_compute in H. discriminate.
Qed.

(** Why the upper end of the range is included: on the doubles the code
    computes with, a tiny negative position plus the period rounds onto
    the period itself (0.09999999999999999 - 0.1 wraps to 24.0,
    0.049999999999999684 - 0.05 to 2 * pi, 0.49999999999999994 - 0.5 to
    360.0). *)
Example wrap_returns_period_binary64 :
  Binary64.wrap 24 (0x1.9999999999999p-4 - Binary64.table_increment)%float
  = 24%float
  /\ Binary64.wrap Binary64.two_pi
       (0x1.999999999996cp-5 - Binary64.angle_increment)%float
     = Binary64.two_pi
  /\ Binary64.wrap 360 (0x1.fffffffffffffp-2 - Binary64.degrees_increment)%float
     = 360%float.
Proof. vm_compute. repeat split. Qed.

(** C1 (amended): normalisation is one conditional correction by the
    period P: it returns x - P when x >= P, x + P when x < 0, and x
    itself when 0 <= x < P.  For -P <= x < 2P the result lies in the
    closed range [0, P] (P itself can be returned: on doubles x + P
    rounds to P for a tiny negative x); for x >= 2P the result is still
    >= P and for x < -P still < 0.  This holds for [normalize_step] of
    the table script (P = NUM_STEPS = 24) and for the wrap of the cosine
    scripts (P = 2*pi and P = 360); position 24.0 normalises to 0. *)
Theorem normalize_one_correction :
  (forall x : Q,
      ((inject_Z StepTable.NUM_STEPS <= x)%Q ->
       StepTable.normalize_step x = (x - inject_Z StepTable.NUM_STEPS)%Q)
      /\ ((x < 0)%Q ->
          StepTable.normalize_step x = (x + inject_Z StepTable.NUM_STEPS)%Q)
      /\ ((0 <= x)%Q -> (x < inject_Z StepTable.NUM_STEPS)%Q ->
          StepTable.normalize_step x = x)
      /\ ((- inject_Z StepTable.NUM_STEPS <= x)%Q ->
          (x < 2 * inject_Z StepTable.NUM_STEPS)%Q ->
          (0 <= StepTable.normalize_step x)%Q
          /\ (StepTable.normalize_step x <= inject_Z StepTable.NUM_STEPS)%Q)
      /\ ((2 * inject_Z StepTable.NUM_STEPS <= x)%Q ->
          (inject_Z StepTable.NUM_STEPS <= StepTable.normalize_step x)%Q)
      /\ ((x < - inject_Z StepTable.NUM_STEPS)%Q ->
          (StepTable.normalize_step x < 0)%Q))
  /\ (StepTable.normalize_step (24 # 1) == 0)%Q
  /\ (forall period x : R, (0 < period)%R ->
      ((period <= x)%R -> Cosine.wrap period x = (x - period)%R)
      /\ ((x < 0)%R -> Cosine.wrap period x = (x + period)%R)
      /\ ((0 <= x < period)%R -> Cosine.wrap period x = x)
      /\ ((- period <= x < 2 * period)%R ->
          (0 <= Cosine.wrap period x <= period)%R)
      /\ ((2 * period <= x)%R -> (period <= Cosine.wrap period x)%R)
      /\ ((x < - period)%R -> (Cosine.wrap period x < 0)%R))
  /\ (forall (self : Angle.LinearActuator) (direction : Z),
        Angle.angle (Angle.step self direction)
        = Cosine.wrap (2 * PI)
            (if (0 <? direction)%Z
             then Angle.angle self + Angle.step_increment self
             else Angle.angle self - Angle.step_increment self)%R)
  /\ (forall (self : Sine.LinearActuator) (direction : Z),
        Sine.degrees (Sine.step self direction)
        = Cosine.wrap 360
            (if (direction =? 1)%Z
             then Sine.degrees self + Sine.step_increment self
             else Sine.degrees self - Sine.step_increment self)%R).
Proof.
  split; [| split; [| split; [| split]]].
  - intro x.
    destruct (normalize_step_float_cases x) as [[H E] | [[H E] | [H1 [H2 E]]]];
      rewrite E; rewrite NUM_STEPS_is_24 in *; unfold inject_Z in *;
      repeat split; intros; try reflexivity; try lra; exfalso; lra.
  - vm_compute. reflexivity.
  - intros period x Hp.
    destruct (wrap_cases period x) as [[H E] | [[H [H' E]] | [H E]]];
      rewrite E; repeat split; intros; try reflexivity; try lra; exfalso; lra.
  - intros self direction. reflexivity.
  - intros self direction. reflexivity.
Qed.

Lemma normalize_one_correction_witness :
  (0 < 360)%R /\ (- (360) <= - (1 / 8) < 2 * 360)%R
  /\ (0 <= Cosine.wrap 360 (- (1 / 8)) <= 360)%R.
Proof.
  assert (Hp : (0 < 360)%R) by lra.
  assert (Hx : (- (360) <= - (1 / 8) < 2 * 360)%R) by lra.
  split; [exact Hp | split; [exact Hx |]].
  destruct normalize_one_correction as (_ & _ & H & _).
  destruct (H 360%R (- (1 / 8))%R Hp) as (_ & _ & _ & Hr & _).
  exact (Hr Hx).
Defined.

(* ===================================================================== *)
(** ** Properties: the monad, and the position invariant                  *)
(* ===================================================================== *)

Lemma eval_bind {A B} (c : IO A) (k : A -> IO B) (b : board) :
  eval (bind c k) b = eval (k (eval c b)) (exec c b).
Proof. unfold eval, exec, bind. destruct (c b); reflexivity. Qed.

Lemma exec_bind {A B} (c : IO A) (k : A -> IO B) (b : board) :
  exec (bind c k) b = exec (k (eval c b)) (exec c b).
Proof. unfold eval, exec, bind. destruct (c b); reflexivity. Qed.

Lemma eval_ret {A} (a : A) (b : board) : eval (ret a) b = a.
Proof. reflexivity. Qed.

Lemma exec_ret {A} (a : A) (b : board) : exec (ret a) b = b.
Proof. reflexivity. Qed.

(** One advance keeps a cosine position inside its cycle as long as the
    increment does not exceed the period. *)
Lemma wrap_after_move (period pos inc : R) (forwards : bool) :
  (0 < inc <= period -> 0 <= pos < period ->
   0 <= Cosine.wrap period (if forwards then pos + inc else pos - inc) < period)%R.
Proof.
  intros Hinc Hpos.
  assert (Hp : (0 < period)%R) by lra.
  apply (wrap_range period _ Hp).
  destruct forwards; lra.
Qed.


(** Where [step] of the table script leaves the actuator. *)
Lemma table_step_self (self : StepTable.LinearActuator) (b : board) :
  fst (eval (StepTable.step self) b)
  = if StepTable.running self then StepTable.advance self else self.
Proof.
  unfold StepTable.step.
  destruct (StepTable.running self); cbn [negb].
  - destruct (StepTable.phase_values _ _) as [[[pa pb] pc] |].
    + rewrite !eval_bind, eval_ret. reflexivity.
    + reflexivity.
  - rewrite eval_bind, eval_ret. reflexivity.
Qed.

(** One advance keeps a cosine position inside the closed cycle as long
    as the increment does not exceed the period. *)
Lemma wrap_after_move_closed (period pos inc : R) (forwards : bool) :
  (0 < inc <= period -> 0 <= pos <= period ->
   0 <= Cosine.wrap period (if forwards then pos + inc else pos - inc) <= period)%R.
Proof.
  intros Hinc Hpos.
  destruct forwards;
    match goal with
    | |- context [Cosine.wrap period ?y] =>
        destruct (wrap_cases period y) as [[H E] | [[H [H' E]] | [H E]]]
    end; rewrite E; lra.
Qed.

(** The same for the table position. *)
Lemma advance_in_closed_cycle (self : StepTable.LinearActuator) :
  (0 < StepTable.step_increment self ->
   StepTable.step_increment self <= inject_Z StepTable.NUM_STEPS ->
   0 <= StepTable.current_step self ->
   StepTable.current_step self <= inject_Z StepTable.NUM_STEPS ->
   0 <= StepTable.current_step (StepTable.advance self)
   /\ StepTable.current_step (StepTable.advance self)
      <= inject_Z StepTable.NUM_STEPS)%Q.
Proof.
  intros Hi Hi' H0 H1.
  unfold StepTable.advance; cbn [StepTable.current_step].
  destruct (StepTable.direction self =? StepTable.DIRECTION_FORWARDS)%Z;
    match goal with
    | |- context [StepTable.normalize_step ?y] =>
        destruct (normalize_step_float_cases y) as [[A E] | [[A E] | [A1 [A2 E]]]]
    end; rewrite E; rewrite NUM_STEPS_is_24 in *; unfold inject_Z in *;
    split; lra.
Qed.

(** C2, as stated, fails on the doubles the code computes with: a
    backward step from a position inside [0, P) leaves the position at P
    itself, outside [0, P).  From the angle 0.049999999999999684, with
    the constructor's increment 0.05, [step(-1)] of code.py leaves
    2 * math.pi; from 0.49999999999999994 degrees [step(-1)] of
    sine/code.py leaves 360.0; from 0.09999999999999999 the table script
    stepping backwards leaves 24.0. *)
Lemma step_reaches_period_binary64 :
  (Binary64.in_cycle Binary64.two_pi 0x1.999999999996cp-5 = true
   /\ Binary64.angle_step 0x1.999999999996cp-5 Binary64.angle_increment (-1)
      = Binary64.two_pi
   /\ Binary64.in_cycle Binary64.two_pi
        (Binary64.angle_step 0x1.999999999996cp-5 Binary64.angle_increment (-1))
      = false)
  /\ (Binary64.in_cycle 360 0x1.fffffffffffffp-2 = true
      /\ Binary64.degrees_step 0x1.fffffffffffffp-2 Binary64.degrees_increment (-1)
         = 360%float
      /\ Binary64.in_cycle 360
           (Binary64.degrees_step 0x1.fffffffffffffp-2
                                  Binary64.degrees_increment (-1))
         = false)
  /\ (Binary64.in_cycle 24 0x1.9999999999999p-4 = true
      /\ Binary64.table_advance 0x1.9999999999999p-4 Binary64.table_increment (-1)
         = 24%float
      /\ Binary64.in_cycle 24
           (Binary64.table_advance 0x1.9999999999999p-4
                                   Binary64.table_increment (-1))
         = false).
Proof. vm_compute. repeat split. Qed.

(** The loop of code.py reaches that state by itself: its reversal
    period is 251 (2 * 2 * pi / 0.05 lies between 251 and 251.5 on
    doubles too); after 501 iterations the angle is
    0.049999999999999684 and the direction -1, and after 502 the angle
    is 2 * math.pi, still inside the closed range. *)
Example angle_loop_reaches_period_binary64 :
  (251 <=? Binary64.two_pi / Binary64.angle_increment * 2)%float = true
  /\ (Binary64.two_pi / Binary64.angle_increment * 2 <? 251.5)%float = true
  /\ Binary64.angle_loop 501 (0%float, 1%Z, 0%Z)
     = (0x1.999999999996cp-5%float, (-1)%Z, 501%Z)
  /\ Binary64.angle_loop 502 (0%float, 1%Z, 0%Z)
     = (Binary64.two_pi, 1%Z, 502%Z)
  /\ Binary64.in_closed_cycle Binary64.two_pi
       (fst (fst (Binary64.angle_loop 502 (0%float, 1%Z, 0%Z)))) = true.
Proof. vm_compute. repeat split. Qed.

(** C2 (amended): the position invariant holds with the upper end
    included.  With the step increment set by the constructor (0.05 rad,
    0.5 degrees, 0.1 table steps), a position inside [0, P] is again
    inside [0, P] after [step], for either direction: the angle of
    code.py (P = 2*pi), the degrees of sine/code.py (P = 360) and the
    current_step of step_table/code.py (P = NUM_STEPS).  The end P can
    be reached, so [0 <= position < P] is not kept. *)
Theorem step_keeps_position_in_closed_cycle :
  (forall (self : Angle.LinearActuator) (direction : Z),
      Angle.step_increment self = Angle.step_increment (eval Angle.init power_on) ->
      (0 <= Angle.angle self <= 2 * PI)%R ->
      (0 <= Angle.angle (Angle.step self direction) <= 2 * PI)%R)
  /\ (forall (self : Sine.LinearActuator) (direction : Z),
      Sine.step_increment self = Sine.step_increment (eval Sine.init power_on) ->
      (0 <= Sine.degrees self <= 360)%R ->
      (0 <= Sine.degrees (Sine.step self direction) <= 360)%R)
  /\ (forall (self : StepTable.LinearActuator) (b : board),
      StepTable.step_increment self
      = StepTable.step_increment (eval StepTable.init power_on) ->
      (0 <= StepTable.current_step self)%Q ->
      (StepTable.current_step self <= inject_Z StepTable.NUM_STEPS)%Q ->
      let self' := fst (eval (StepTable.step self) b) in
      (0 <= StepTable.current_step self')%Q
      /\ (StepTable.current_step self' <= inject_Z StepTable.NUM_STEPS)%Q).
Proof.
  split; [| split].
  - intros self direction Hinc Hpos.
    unfold Angle.step; cbn [Angle.angle Angle.set_angle].
    rewrite Hinc. cbn.
    pose proof two_PI_bounds.
    apply (wrap_after_move_closed (2 * PI) (Angle.angle self) (5 / 100)
             (0 <? direction)%Z); lra.
  - intros self direction Hinc Hpos.
    unfold Sine.step; cbn [Sine.degrees Sine.set_degrees].
    rewrite Hinc. cbn.
    apply (wrap_after_move_closed 360 (Sine.degrees self) (5 / 10)
             (direction =? Sine.DIRECTION_FORWARDS)%Z); lra.
  - intros self b Hinc H0 H1 self'. subst self'.
    rewrite table_step_self.
    destruct (StepTable.running self); [| split; assumption].
    apply advance_in_closed_cycle; try assumption; rewrite Hinc; vm_compute; congruence.
Qed.

Lemma step_keeps_position_in_closed_cycle_witness :
  (0 <= Sine.degrees (Sine.step (Sine.mkActuator true 360 (5 / 10) 1) (-1)) <= 360)%R.
Proof.
  destruct step_keeps_position_in_closed_cycle as (_ & H & _).
  apply H; cbn; [reflexivity | lra].
Defined.

(* ===================================================================== *)
(** ** Properties: the phase output driver                                *)
(* ===================================================================== *)

Lemma pwm_eqb_eq (p q : pwm) : pwm_eqb p q = true <-> p = q.
Proof. destruct p, q; cbn; split; intro H; try reflexivity; discriminate. Qed.

Lemma pwm_eqb_refl (p : pwm) : pwm_eqb p p = true.
Proof. destruct p; reflexivity. Qed.

Lemma pwm_eqb_neq (p q : pwm) : p <> q -> pwm_eqb p q = false.
Proof.
  intro H. destruct (pwm_eqb p q) eqn:E; [| reflexivity].
  apply pwm_eqb_eq in E. contradiction.
Qed.

Lemma duty_cycle_store (p q : pwm) (d : Z) (b : board) :
  duty_cycle p (store q d b) = if pwm_eqb p q then d else duty_cycle p b.
Proof. destruct p, q; reflexivity. Qed.

Lemma duty_cycle_record (p : pwm) (e : event) (b : board) :
  duty_cycle p (record e b) = duty_cycle p b.
Proof. destruct p; reflexivity. Qed.

Lemma duty_cycle_set (p q : pwm) (d : Z) (b : board) :
  duty_cycle p (exec (set_duty_cycle q d) b)
  = if pwm_eqb p q then d else duty_cycle p b.
Proof.
  unfold exec, set_duty_cycle; cbn [snd].
  rewrite duty_cycle_record. apply duty_cycle_store.
Qed.

Lemma duty_cycle_sleep (p : pwm) (t : Q) (b : board) :
  duty_cycle p (exec (sleep t) b) = duty_cycle p b.
Proof. unfold exec, sleep; cbn [snd]. apply duty_cycle_record. Qed.

(** A switch-over: [off] is driven to zero, then [on] is set to [d]. *)
Lemma duty_cycle_switch (p off on : pwm) (t : Q) (d : Z) (b : board) :
  duty_cycle p
    (exec (set_duty_cycle off 0 ;; sleep t ;; set_duty_cycle on d)%io b)
  = if pwm_eqb p on then d
    else if pwm_eqb p off then 0%Z
    else duty_cycle p b.
Proof.
  rewrite !exec_bind, duty_cycle_set, duty_cycle_sleep, duty_cycle_set.
  reflexivity.
Qed.

(** [int] on a non-negative real is the integer just below it. *)
Lemma int_nonneg_bounds (x : R) :
  (0 <= x -> IZR (Cosine.int x) <= x < IZR (Cosine.int x) + 1)%R.
Proof.
  intro H. unfold Cosine.int.
  destruct (Rle_dec 0 x); [| contradiction].
  destruct (base_Int_part x). lra.
Qed.

Lemma int_nonneg_unique (x : R) (z : Z) :
  (0 <= x -> IZR z <= x < IZR z + 1 -> Cosine.int x = z)%R.
Proof.
  intros H Hz. unfold Cosine.int.
  destruct (Rle_dec 0 x); [| contradiction].
  symmetry. apply Int_part_spec. lra.
Qed.

Lemma int_nonneg_sign (x : R) : (0 <= x)%R -> (0 <= Cosine.int x)%Z.
Proof.
  intro H. destruct (int_nonneg_bounds x H) as [_ Hu].
  apply Z.lt_succ_r. apply lt_IZR. rewrite succ_IZR. lra.
Qed.

Lemma int_le_bound (x : R) (n : Z) :
  (0 <= x <= IZR n)%R -> (0 <= Cosine.int x <= n)%Z.
Proof.
  intros [H0 H1]. split; [apply int_nonneg_sign; exact H0 |].
  destruct (int_nonneg_bounds x H0) as [Hl _].
  apply le_IZR. lra.
Qed.

(** [int] of the table script on a non-negative rational. *)
Lemma table_int_nonneg_bounds (x : Q) :
  (0 <= x -> inject_Z (StepTable.int x) <= x
             /\ x < inject_Z (StepTable.int x) + 1)%Q.
Proof.
  intro H. unfold StepTable.int.
  assert (Hn : (0 <= Qnum x)%Z).
  { unfold Qle in H. cbn in H. lia. }
  rewrite Z.quot_div_nonneg by lia.
  change (Qnum x / Z.pos (Qden x))%Z with (Qfloor (Qnum x # Qden x)).
  destruct x as [n d]; cbn [Qnum Qden].
  split; [apply Qfloor_le |].
  pose proof (Qlt_floor (n # d)) as L.
  rewrite inject_Z_plus in L. exact L.
Qed.

(** Duty cycles after [apply_phase] of the cosine scripts. *)
Lemma cosine_apply_phase_duty (M : Z) (D : Q) (high low p : pwm) (value : R)
      (b : board) :
  duty_cycle p (exec (Cosine.apply_phase M D high low value) b)
  = if Rle_dec 0 value then
      if pwm_eqb p high then Cosine.int (value * IZR M)
      else if pwm_eqb p low then 0%Z else duty_cycle p b
    else
      if pwm_eqb p low then Cosine.int (- value * IZR M)
      else if pwm_eqb p high then 0%Z else duty_cycle p b.
Proof.
  unfold Cosine.apply_phase.
  destruct (Rle_dec 0 value); apply duty_cycle_switch.
Qed.

(** Duty cycles after [apply_phase] of the table script. *)
Lemma table_apply_phase_duty (high low p : pwm) (value : Q) (b : board) :
  duty_cycle p (exec (StepTable.apply_phase high low value) b)
  = if Qle_bool 0 value then
      if pwm_eqb p high
      then StepTable.int (value / 100 * inject_Z StepTable.PWM_MAX)
      else if pwm_eqb p low then 0%Z else duty_cycle p b
    else
      if pwm_eqb p low
      then StepTable.int (-1 * (value / 100) * inject_Z StepTable.PWM_MAX)
      else if pwm_eqb p high then 0%Z else duty_cycle p b.
Proof.
  unfold StepTable.apply_phase.
  destruct (Qle_bool 0 value); apply duty_cycle_switch.
Qed.

(** C3, as stated, fails: for the value 0.25 the high side is set to
    16383, while 0.25 * 65535 = 16383.75 rounds to 16384. *)
Lemma apply_phase_quarter_not_rounded :
  (-1 <= 1 / 4 <= 1)%R /\ (0 <= 1 / 4)%R
  /\ duty_cycle pwm_ah (exec (Angle.apply_phase pwm_ah pwm_al (1 / 4)) power_on)
     = 16383%Z
  /\ ~ spec_round (1 / 4 * IZR Angle.PWM_MAX)
        (duty_cycle pwm_ah (exec (Angle.apply_phase pwm_ah pwm_al (1 / 4)) power_on)).
Proof.
  assert (E : duty_cycle pwm_ah
                (exec (Angle.apply_phase pwm_ah pwm_al (1 / 4)) power_on)
              = 16383%Z).
  { unfold Angle.apply_phase. rewrite cosine_apply_phase_duty.
    destruct (Rle_dec 0 (1 / 4)) as [_ | N]; [| exfalso; apply N; lra].
    cbn [pwm_eqb]. unfold Angle.PWM_MAX.
    apply int_nonneg_unique; lra. }
  rewrite E.
  repeat split; try lra.
  unfold spec_round, Angle.PWM_MAX. intro H.
  replace (1 / 4 * 65535 - 16383)%R with (3 / 4)%R in H by lra.
  rewrite Rabs_pos_eq in H; lra.
Qed.

(** C3 (amended): [apply_phase] truncates instead of rounding.  For
    every value and distinct high and low outputs: if value >= 0 the
    low-side duty is set to 0 and the high-side duty to the integer d
    with d <= value * PWM_MAX < d + 1; if value < 0 the high-side duty is
    set to 0 and the low-side duty to the integer d with
    d <= -value * PWM_MAX < d + 1; for a value in [-1, 1] that duty lies in
    0 .. PWM_MAX.  The same holds in the table script with value / 100 in
    place of value. *)
Theorem apply_phase_truncates :
  (forall (high low : pwm) (value : R) (b : board),
      high <> low ->
      let b' := exec (Angle.apply_phase high low value) b in
      exec (Sine.apply_phase high low value) b = b'
      /\ ((0 <= value)%R ->
          duty_cycle low b' = 0%Z
          /\ (IZR (duty_cycle high b') <= value * IZR Angle.PWM_MAX
              < IZR (duty_cycle high b') + 1)%R)
      /\ ((value < 0)%R ->
          duty_cycle high b' = 0%Z
          /\ (IZR (duty_cycle low b') <= - value * IZR Angle.PWM_MAX
              < IZR (duty_cycle low b') + 1)%R)
      /\ ((-1 <= value <= 1)%R ->
          (0 <= duty_cycle high b' <= Angle.PWM_MAX)%Z
          /\ (0 <= duty_cycle low b' <= Angle.PWM_MAX)%Z))
  /\ (forall (high low : pwm) (value : Q) (b : board),
      high <> low ->
      let b' := exec (StepTable.apply_phase high low value) b in
      ((0 <= value)%Q ->
       duty_cycle low b' = 0%Z
       /\ (inject_Z (duty_cycle high b')
           <= value / 100 * inject_Z StepTable.PWM_MAX)%Q
       /\ (value / 100 * inject_Z StepTable.PWM_MAX
           < inject_Z (duty_cycle high b') + 1)%Q)
      /\ ((value < 0)%Q ->
          duty_cycle high b' = 0%Z
          /\ (inject_Z (duty_cycle low b')
              <= - (value / 100) * inject_Z StepTable.PWM_MAX)%Q
          /\ (- (value / 100) * inject_Z StepTable.PWM_MAX
              < inject_Z (duty_cycle low b') + 1)%Q)).
Proof.
  split.
  - intros high low value b Hne b'.
    assert (Hlh : pwm_eqb low high = false) by (apply pwm_eqb_neq; congruence).
    assert (Hhl : pwm_eqb high low = false) by (apply pwm_eqb_neq; congruence).
    split; [reflexivity |].
    subst b'. unfold Angle.apply_phase.
    rewrite !cosine_apply_phase_duty, !pwm_eqb_refl, Hlh, Hhl.
    unfold Angle.PWM_MAX.
    destruct (Rle_dec 0 value) as [Hv | Hv].
    + split; [| split].
      * intros _. split; [reflexivity |]. apply int_nonneg_bounds. lra.
      * intro. lra.
      * intros [_ H1]. split; [| lia]. apply int_le_bound. lra.
    + split; [| split].
      * intro. lra.
      * intros _. split; [reflexivity |]. apply int_nonneg_bounds. lra.
      * intros [H1 _]. split; [lia |]. apply int_le_bound. lra.
  - intros high low value b Hne b'.
    assert (Hlh : pwm_eqb low high = false) by (apply pwm_eqb_neq; congruence).
    assert (Hhl : pwm_eqb high low = false) by (apply pwm_eqb_neq; congruence).
    subst b'.
    rewrite !table_apply_phase_duty, !pwm_eqb_refl, Hlh, Hhl.
    unfold StepTable.PWM_MAX.
    destruct (Qle_bool 0 value) eqn:Hv.
    + apply Qle_bool_iff in Hv. split.
      * intros _. split; [reflexivity |].
        apply table_int_nonneg_bounds.
        unfold inject_Z.
        setoid_replace (value / 100)%Q with (value * (1 # 100))%Q by (field).
        lra.
      * intro. lra.
    + assert (Hn : (value < 0)%Q).
      { apply Qnot_le_lt. intro H. apply Qle_bool_iff in H. congruence. }
      split.
      * intro. lra.
      * intros _. split; [reflexivity |].
        assert (E : (-1 * (value / 100) * inject_Z 65535
                     == - (value / 100) * inject_Z 65535)%Q) by ring.
        pose proof (table_int_nonneg_bounds
                      (-1 * (value / 100) * inject_Z 65535)%Q) as T.
        rewrite <- E.
        apply T. unfold inject_Z.
        setoid_replace (value / 100)%Q with (value * (1 # 100))%Q by (field).
        lra.
Qed.

Lemma apply_phase_truncates_witness :
  pwm_bh <> pwm_bl /\
  duty_cycle pwm_bl (exec (Angle.apply_phase pwm_bh pwm_bl (1 / 2)) power_on) = 0%Z.
Proof.
  split; [discriminate |].
  destruct apply_phase_truncates as [H _].
  destruct (H pwm_bh pwm_bl (1 / 2)%R power_on) as (_ & Hpos & _); [discriminate |].
  destruct Hpos as [Hlow _]; [lra | exact Hlow].
Defined.

(* ===================================================================== *)
(** ** Properties: construction, stopping                                 *)
(* ===================================================================== *)

Lemma output_off_all_off (b : board) : all_off (exec output_off b).
Proof. intro p. destruct p; reflexivity. Qed.

Lemma output_off_log (b : board) :
  log (exec output_off b)
  = log b ++ [DutyCycle pwm_ah 0; DutyCycle pwm_al 0; DutyCycle pwm_bh 0;
              DutyCycle pwm_bl 0; DutyCycle pwm_ch 0; DutyCycle pwm_cl 0].
Proof.
  cbn. repeat rewrite <- app_assoc. reflexivity.
Qed.



(** A stopped actuator stays stopped, with its outputs off, whatever
    stop and tick calls follow. *)
Section Idle.

Variable S : Type.
Variable stopped : S -> Prop.
Variables stop tick : S -> IO S.

Hypothesis stop_stops :
  forall self b, stopped (eval (stop self) b) /\ all_off (exec (stop self) b).
Hypothesis tick_idle :
  forall self b, stopped self ->
                 eval (tick self) b = self /\ all_off (exec (tick self) b).

Lemma idle_calls_stay_off (calls : list idle_call) :
  forall self b,
    stopped self -> all_off b ->
    stopped (eval (idle_calls stop tick calls self) b)
    /\ all_off (exec (idle_calls stop tick calls self) b).
Proof.
  induction calls as [| c rest IH]; intros self b Hs Hoff.
  - split; assumption.
  - cbn [idle_calls]. rewrite eval_bind, exec_bind.
    destruct c.
    + destruct (stop_stops self b) as [Hs' Hoff'].
      apply IH; assumption.
    + destruct (tick_idle self b Hs) as [E Hoff'].
      apply IH; [rewrite E; exact Hs | exact Hoff'].
Qed.

End Idle.

Lemma angle_stop_spec (self : Angle.LinearActuator) (b : board) :
  eval (Angle.stop self) b = Angle.set_running self false
  /\ all_off (exec (Angle.stop self) b).
Proof. split; [reflexivity | intro p; destruct p; reflexivity]. Qed.

Lemma sine_stop_spec (self : Sine.LinearActuator) (b : board) :
  eval (Sine.stop self) b = Sine.set_running self false
  /\ all_off (exec (Sine.stop self) b).
Proof. split; [reflexivity | intro p; destruct p; reflexivity]. Qed.

Lemma table_stop_spec (self : StepTable.LinearActuator) (b : board) :
  eval (StepTable.stop self) b = StepTable.set_running self false
  /\ all_off (exec (StepTable.stop self) b).
Proof. split; [reflexivity | intro p; destruct p; reflexivity]. Qed.

Lemma angle_tick_stopped (self : Angle.LinearActuator) (b : board) :
  Angle.running self = false ->
  eval (angle_tick self) b = self
  /\ exec (angle_tick self) b = exec output_off b.
Proof.
  intro H. unfold angle_tick, Angle.update. rewrite H. split; reflexivity.
Qed.

Lemma sine_tick_stopped (self : Sine.LinearActuator) (b : board) :
  Sine.running self = false ->
  eval (sine_tick self) b = self
  /\ exec (sine_tick self) b = exec output_off b.
Proof.
  intro H. unfold sine_tick, Sine.update. rewrite H. split; reflexivity.
Qed.

Lemma table_tick_stopped (self : StepTable.LinearActuator) (b : board) :
  StepTable.running self = false ->
  eval (table_tick self) b = self
  /\ exec (table_tick self) b = exec output_off b.
Proof.
  intro H. unfold table_tick, StepTable.step. rewrite H. split; reflexivity.
Qed.

Lemma angle_idle (calls : list idle_call) (self : Angle.LinearActuator) (b : board) :
  Angle.running self = false -> all_off b ->
  Angle.running (eval (idle_calls Angle.stop angle_tick calls self) b) = false
  /\ all_off (exec (idle_calls Angle.stop angle_tick calls self) b).
Proof.
  apply (idle_calls_stay_off _ (fun s => Angle.running s = false)).
  - intros s b0. destruct (angle_stop_spec s b0) as [E0 H0].
    rewrite E0. split; [reflexivity | exact H0].
  - intros s b0 Hs. destruct (angle_tick_stopped s b0 Hs) as [E0 X0].
    rewrite X0. split; [exact E0 | apply output_off_all_off].
Qed.

Lemma sine_idle (calls : list idle_call) (self : Sine.LinearActuator) (b : board) :
  Sine.running self = false -> all_off b ->
  Sine.running (eval (idle_calls Sine.stop sine_tick calls self) b) = false
  /\ all_off (exec (idle_calls Sine.stop sine_tick calls self) b).
Proof.
  apply (idle_calls_stay_off _ (fun s => Sine.running s = false)).
  - intros s b0. destruct (sine_stop_spec s b0) as [E0 H0].
    rewrite E0. split; [reflexivity | exact H0].
  - intros s b0 Hs. destruct (sine_tick_stopped s b0 Hs) as [E0 X0].
    rewrite X0. split; [exact E0 | apply output_off_all_off].
Qed.

Lemma table_idle (calls : list idle_call) (self : StepTable.LinearActuator)
      (b : board) :
  StepTable.running self = false -> all_off b ->
  StepTable.running (eval (idle_calls StepTable.stop table_tick calls self) b) = false
  /\ all_off (exec (idle_calls StepTable.stop table_tick calls self) b).
Proof.
  apply (idle_calls_stay_off _ (fun s => StepTable.running s = false)).
  - intros s b0. destruct (table_stop_spec s b0) as [E0 H0].
    rewrite E0. split; [reflexivity | exact H0].
  - intros s b0 Hs. destruct (table_tick_stopped s b0 Hs) as [E0 X0].
    rewrite X0. split; [exact E0 | apply output_off_all_off].
Qed.

(** C9: [stop] sets running to false and leaves all six duty cycles at
    0, and leaves the position alone; a tick (update of the cosine
    scripts, step of the table script) on a stopped actuator changes
    nothing of the actuator and leaves all six duty cycles at 0; so
    after one [stop], any further sequence of stop and tick calls ends
    stopped with all six duty cycles at 0. *)
Theorem stop_is_idempotent :
  (forall (self : Angle.LinearActuator) (b : board) (calls : list idle_call),
      let c := (s <- Angle.stop self ;; idle_calls Angle.stop angle_tick calls s)%io in
      Angle.running (eval (Angle.stop self) b) = false
      /\ Angle.angle (eval (Angle.stop self) b) = Angle.angle self
      /\ all_off (exec (Angle.stop self) b)
      /\ Angle.running (eval c b) = false
      /\ all_off (exec c b))
  /\ (forall (self : Sine.LinearActuator) (b : board) (calls : list idle_call),
      let c := (s <- Sine.stop self ;; idle_calls Sine.stop sine_tick calls s)%io in
      Sine.running (eval (Sine.stop self) b) = false
      /\ Sine.degrees (eval (Sine.stop self) b) = Sine.degrees self
      /\ all_off (exec (Sine.stop self) b)
      /\ Sine.running (eval c b) = false
      /\ all_off (exec c b))
  /\ (forall (self : StepTable.LinearActuator) (b : board) (calls : list idle_call),
      let c := (s <- StepTable.stop self ;;
                idle_calls StepTable.stop table_tick calls s)%io in
      StepTable.running (eval (StepTable.stop self) b) = false
      /\ StepTable.current_step (eval (StepTable.stop self) b)
         = StepTable.current_step self
      /\ all_off (exec (StepTable.stop self) b)
      /\ StepTable.running (eval c b) = false
      /\ all_off (exec c b))
  /\ (forall (self : Angle.LinearActuator) (b : board),
      Angle.running self = false ->
      all_off (exec (Angle.update self) b)
      /\ forall p, duty_cycle p (exec (Angle.update self) (exec (Angle.update self) b))
                   = duty_cycle p (exec (Angle.update self) b))
  /\ (forall (self : Sine.LinearActuator) (b : board),
      Sine.running self = false ->
      all_off (exec (Sine.update self) b))
  /\ (forall (self : StepTable.LinearActuator) (b : board),
      StepTable.running self = false ->
      eval (StepTable.step self) b = (self, StepTable.Returned)
      /\ all_off (exec (StepTable.step self) b)).
Proof.
  repeat apply conj.
  - intros self b calls c. subst c.
    destruct (angle_stop_spec self b) as [E Hoff].
    rewrite eval_bind, exec_bind.
    repeat apply conj; try (rewrite E; reflexivity); try exact Hoff;
      apply angle_idle; try exact Hoff; rewrite E; reflexivity.
  - intros self b calls c. subst c.
    destruct (sine_stop_spec self b) as [E Hoff].
    rewrite eval_bind, exec_bind.
    repeat apply conj; try (rewrite E; reflexivity); try exact Hoff;
      apply sine_idle; try exact Hoff; rewrite E; reflexivity.
  - intros self b calls c. subst c.
    destruct (table_stop_spec self b) as [E Hoff].
    rewrite eval_bind, exec_bind.
    repeat apply conj; try (rewrite E; reflexivity); try exact Hoff;
      apply table_idle; try exact Hoff; rewrite E; reflexivity.
  - intros self b H. unfold Angle.update. rewrite H. cbn [negb].
    split; [apply output_off_all_off | intro p; destruct p; reflexivity].
  - intros self b H. unfold Sine.update. rewrite H. apply output_off_all_off.
  - intros self b H. unfold StepTable.step. rewrite H. cbn [negb].
    split; [reflexivity | apply output_off_all_off].
Qed.

Lemma stop_is_idempotent_witness :
  Angle.running (Angle.mkActuator 1 true (5 / 100) false) = false
  /\ all_off (exec (Angle.update (Angle.mkActuator 1 true (5 / 100) false)) power_on).
Proof.
  split; [reflexivity |].
  destruct stop_is_idempotent as (_ & _ & _ & H & _).
  apply (H (Angle.mkActuator 1 true (5 / 100) false) power_on). reflexivity.
Defined.

(* ===================================================================== *)
(** ** Properties: the interpolated table                                 *)
(* ===================================================================== *)

Lemma Qfloor_bounds (p : Q) (n : Z) :
  (0 <= p)%Q -> (p < inject_Z n)%Q -> (0 <= Qfloor p < n)%Z.
Proof.
  intros H0 H1. split.
  - change 0%Z with (Qfloor 0). apply Qfloor_resp_le. exact H0.
  - rewrite Zlt_Qlt. apply Qle_lt_trans with p; [apply Qfloor_le | exact H1].
Qed.

Lemma Qceiling_bounds (p : Q) (n : Z) :
  (0 <= p)%Q -> (p < inject_Z n)%Q -> (0 <= Qceiling p <= n)%Z.
Proof.
  intros H0 H1. split.
  - change 0%Z with (Qceiling 0). apply Qceiling_resp_le. exact H0.
  - rewrite <- (Qceiling_Z n). apply Qceiling_resp_le. apply Qlt_le_weak. exact H1.
Qed.

(** The fraction of a position lies between its floor and ceiling. *)
Lemma floor_ceiling_gap (p : Q) :
  (0 <= p - inject_Z (Qfloor p) /\ p - inject_Z (Qfloor p) < 1
   /\ 0 <= inject_Z (Qceiling p) - p /\ inject_Z (Qceiling p) - p < 1)%Q.
Proof.
  pose proof (Qfloor_le p) as F1.
  pose proof (Qlt_floor p) as F2. rewrite inject_Z_plus in F2.
  pose proof (Qle_ceiling p) as C1.
  pose proof (Qceiling_lt p) as C2.
  unfold Z.sub in C2. rewrite inject_Z_plus in C2.
  change (inject_Z 1) with 1%Q in F2.
  change (inject_Z (- (1))) with (- (1))%Q in C2.
  repeat split; lra.
Qed.

(** An index inside the table is found, and left alone by
    [normalize_step]. *)
Lemma getitem_inside (i : Z) :
  (0 <= i < StepTable.NUM_STEPS)%Z ->
  StepTable.normalize_step i = i
  /\ exists r, StepTable.getitem StepTable.STEPS i = Some r
               /\ nth_error StepTable.STEPS (Z.to_nat i) = Some r.
Proof.
  intro H. split.
  - destruct (normalize_step_int_cases i) as [[H' _] | [[H' _] | [_ E]]];
      [lia | lia | exact E].
  - unfold StepTable.getitem.
    change (StepTable.len StepTable.STEPS) with StepTable.NUM_STEPS.
    replace ((0 <=? i)%Z && (i <? StepTable.NUM_STEPS)%Z) with true
      by (symmetry; apply andb_true_iff; split;
          [apply Z.leb_le | apply Z.ltb_lt]; lia).
    destruct (nth_error StepTable.STEPS (Z.to_nat i)) as [r |] eqn:E.
    + exists r. split; reflexivity.
    + exfalso. apply nth_error_None in E.
      rewrite NUM_STEPS_is_24 in H. cbn [StepTable.STEPS length] in E. lia.
Qed.

(** The indices that reach the table, for a position inside the cycle. *)
Lemma lookup_indices_inside (p : Q) (d : Z) :
  (0 <= p)%Q -> (p < inject_Z StepTable.NUM_STEPS)%Q ->
  (0 <= fst (StepTable.lookup_indices p d) <= StepTable.NUM_STEPS - 1)%Z
  /\ (0 <= snd (StepTable.lookup_indices p d) <= StepTable.NUM_STEPS - 1)%Z.
Proof.
  intros H0 H1.
  pose proof (Qfloor_bounds p _ H0 H1) as F.
  pose proof (Qceiling_bounds p _ H0 H1) as C.
  unfold StepTable.lookup_indices, StepTable.bracket.
  destruct (d =? StepTable.DIRECTION_FORWARDS)%Z; cbn [fst snd];
    destruct (normalize_step_int_cases (Qfloor p)) as [[A E] | [[A E] | [A E]]];
    destruct (normalize_step_int_cases (Qceiling p)) as [[A' E'] | [[A' E'] | [A' E']]];
    rewrite E, E'; lia.
Qed.

Lemma interpolate_row_same (r : StepTable.row) (progress : Q) :
  StepTable.interpolate_row r r progress
  = (let '(a, b, c) := r in (inject_Z a, inject_Z b, inject_Z c)).
Proof.
  destruct r as [[a b] c]. unfold StepTable.interpolate_row, StepTable.interpolate_value.
  rewrite !Qeq_bool_refl. reflexivity.
Qed.

(** C5, as stated, fails: with a progress of 2 between 0 and 10 the
    function returns 10, not 0 + 2 * (10 - 0) = 20. *)
Lemma interpolate_value_clamps_at_two :
  ~ (StepTable.interpolate_value 0 10 2 == 0 + 2 * (10 - 0))%Q.
Proof.
  vm_compute. discriminate.
Qed.

(** C5 (amended): [interpolate_value] is linear on [0, 1] and clamped
    outside.  For every from_value, to_value and progress: if
    0 <= progress <= 1 the result equals
    from_value + progress * (to_value - from_value); a progress <= 0 (so
    progress = 0) gives from_value, a progress >= 1 (so progress = 1)
    gives to_value, and from_value == to_value gives to_value whatever
    the progress.  Consequently, at an integral position k inside the
    table, the phase values are row k unchanged, for every direction. *)
Theorem interpolate_value_linear_and_clamped :
  (forall from_value to_value progress : Q,
      ((0 <= progress)%Q -> (progress <= 1)%Q ->
       (StepTable.interpolate_value from_value to_value progress
        == from_value + progress * (to_value - from_value))%Q)
      /\ ((progress <= 0)%Q ->
          (StepTable.interpolate_value from_value to_value progress == from_value)%Q)
      /\ ((1 <= progress)%Q ->
          (StepTable.interpolate_value from_value to_value progress == to_value)%Q)
      /\ ((from_value == to_value)%Q ->
          StepTable.interpolate_value from_value to_value progress = to_value))
  /\ (forall from_value to_value : Q,
      StepTable.interpolate_value from_value to_value 1 = to_value
      /\ (StepTable.interpolate_value from_value to_value 0 == from_value)%Q)
  /\ (forall (k : Z) (position : Q) (direction : Z),
      (0 <= k < StepTable.NUM_STEPS)%Z ->
      (position == inject_Z k)%Q ->
      exists a b c : Z,
        nth_error StepTable.STEPS (Z.to_nat k) = Some (a, b, c)
        /\ StepTable.phase_values position direction
           = Some (inject_Z a, inject_Z b, inject_Z c)).
Proof.
  assert (Clamp : forall f t p : Q,
             ((p <= 0)%Q -> (StepTable.interpolate_value f t p == f)%Q)
             /\ ((1 <= p)%Q -> (StepTable.interpolate_value f t p == t)%Q)).
  { intros f t p. unfold StepTable.interpolate_value.
    destruct (Qeq_bool f t) eqn:E.
    - apply Qeq_bool_iff in E. split; intros _; [symmetry; exact E | reflexivity].
    - destruct (Qle_bool p 0) eqn:E0; destruct (Qle_bool 1 p) eqn:E1;
        try apply Qle_bool_iff in E0; try apply Qle_bool_iff in E1;
        split; intro H; try reflexivity; try lra;
        apply Qle_bool_iff in H; congruence. }
  split; [| split].
  - intros f t p. destruct (Clamp f t p) as [C0 C1].
    repeat apply conj; try assumption.
    + intros H0 H1. unfold StepTable.interpolate_value.
      destruct (Qeq_bool f t) eqn:E.
      { apply Qeq_bool_iff in E. rewrite E. ring. }
      destruct (Qle_bool p 0) eqn:E0.
      { apply Qle_bool_iff in E0. assert (Hp : (p == 0)%Q) by lra.
        rewrite Hp. ring. }
      destruct (Qle_bool 1 p) eqn:E1.
      { apply Qle_bool_iff in E1. assert (Hp : (p == 1)%Q) by lra.
        rewrite Hp. ring. }
      ring.
    + intro E. unfold StepTable.interpolate_value.
      apply Qeq_bool_iff in E. rewrite E. reflexivity.
  - intros f t. split.
    + unfold StepTable.interpolate_value.
      destruct (Qeq_bool f t); reflexivity.
    + apply Clamp. lra.
  - intros k position direction Hk Hpos.
    destruct (getitem_inside k Hk) as [Hn [r [Hg Hnth]]].
    assert (Hb : exists progress,
               StepTable.bracket position direction = (k, k, progress)).
    { unfold StepTable.bracket.
      rewrite (Qfloor_comp _ _ Hpos), (Qceiling_comp _ _ Hpos), Qfloor_Z, Qceiling_Z.
      destruct (direction =? StepTable.DIRECTION_FORWARDS)%Z; eexists; reflexivity. }
    destruct Hb as [progress Hb].
    destruct r as [[a b] c]. exists a, b, c. split; [exact Hnth |].
    unfold StepTable.phase_values, StepTable.lookup_indices.
    rewrite Hb, Hn, Hg.
    rewrite interpolate_row_same. reflexivity.
Qed.

Lemma interpolate_value_linear_and_clamped_witness :
  (0 <= 3 < StepTable.NUM_STEPS)%Z /\ (3 # 1 == inject_Z 3)%Q
  /\ exists a b c : Z,
      nth_error StepTable.STEPS (Z.to_nat 3) = Some (a, b, c)
      /\ StepTable.phase_values (3 # 1) (-1)
         = Some (inject_Z a, inject_Z b, inject_Z c).
Proof.
  split; [vm_compute; split; congruence |].
  split; [reflexivity |].
  destruct interpolate_value_linear_and_clamped as (_ & _ & H).
  apply H; [vm_compute; split; congruence | reflexivity].
Defined.

(** The phase values are the interpolation, by the progress of the
    bracket, between the rows at the wrapped bracket indices. *)
Lemma phase_values_unfold (position : Q) (direction : Z) :
  StepTable.phase_values position direction
  = let '(from_idx, to_idx, progress) := StepTable.bracket position direction in
    match StepTable.getitem StepTable.STEPS (StepTable.normalize_step from_idx),
          StepTable.getitem StepTable.STEPS (StepTable.normalize_step to_idx) with
    | Some from_row, Some to_row =>
        Some (StepTable.interpolate_row from_row to_row progress)
    | _, _ => None
    end.
Proof.
  unfold StepTable.phase_values, StepTable.lookup_indices.
  destruct (StepTable.bracket position direction) as [[f t] g].
  destruct (StepTable.getitem _ _); [| reflexivity].
  destruct (StepTable.getitem _ _); reflexivity.
Qed.

(** C6: the bracket of the table script is direction-aware.  Forwards,
    from_idx = floor(position), to_idx = ceil(position) and
    progress = 1 - (to_idx - position); in every other direction
    (backwards), from_idx = ceil(position), to_idx = floor(position) and
    progress = 1 - (position - to_idx); the progress lies in [0, 1] and
    the phase values interpolate by it between the rows at the wrapped
    indices.  Forwards at position 0.1, between rows (25, 0, -75) and
    (50, 0, -50), the progress is 0.1 and the values are
    (27.5, 0, -72.5). *)
Theorem bracket_is_direction_aware :
  (forall position : Q,
      StepTable.bracket position StepTable.DIRECTION_FORWARDS
      = (Qfloor position, Qceiling position,
         (1 - (inject_Z (Qceiling position) - position))%Q))
  /\ (forall (position : Q) (direction : Z),
      direction <> StepTable.DIRECTION_FORWARDS ->
      StepTable.bracket position direction
      = (Qceiling position, Qfloor position,
         (1 - (position - inject_Z (Qfloor position)))%Q))
  /\ (forall (position : Q) (direction : Z),
      (0 <= snd (StepTable.bracket position direction))%Q
      /\ (snd (StepTable.bracket position direction) <= 1)%Q)
  /\ (forall (position : Q) (direction : Z),
      StepTable.phase_values position direction
      = let '(from_idx, to_idx, progress) := StepTable.bracket position direction in
        match StepTable.getitem StepTable.STEPS (StepTable.normalize_step from_idx),
              StepTable.getitem StepTable.STEPS (StepTable.normalize_step to_idx) with
        | Some from_row, Some to_row =>
            Some (StepTable.interpolate_row from_row to_row progress)
        | _, _ => None
        end)
  /\ (exists progress : Q,
      StepTable.bracket (1 # 10) StepTable.DIRECTION_FORWARDS = (0%Z, 1%Z, progress)
      /\ (progress == 1 # 10)%Q
      /\ StepTable.getitem StepTable.STEPS 0 = Some (25, 0, -75)%Z
      /\ StepTable.getitem StepTable.STEPS 1 = Some (50, 0, -50)%Z
      /\ exists a b c : Q,
          StepTable.phase_values (1 # 10) StepTable.DIRECTION_FORWARDS = Some (a, b, c)
          /\ (a == 275 # 10)%Q /\ (b == 0)%Q /\ (c == - (725 # 10))%Q).
Proof.
  repeat apply conj.
  - intro position. reflexivity.
  - intros position direction H. unfold StepTable.bracket.
    replace (direction =? StepTable.DIRECTION_FORWARDS)%Z with false
      by (symmetry; apply Z.eqb_neq; exact H).
    reflexivity.
  - intros position direction.
    destruct (floor_ceiling_gap position) as (F0 & F1 & C0 & C1).
    unfold StepTable.bracket.
    destruct (direction =? StepTable.DIRECTION_FORWARDS)%Z; cbn [snd]; split; lra.
  - apply phase_values_unfold.
  - eexists. split; [vm_compute; reflexivity |].
    repeat split.
    do 3 eexists. split; [vm_compute; reflexivity |].
    repeat split.
Qed.

Lemma bracket_is_direction_aware_witness :
  (-1)%Z <> StepTable.DIRECTION_FORWARDS
  /\ StepTable.bracket (9 # 10) (-1)
     = (Qceiling (9 # 10), Qfloor (9 # 10),
        (1 - ((9 # 10) - inject_Z (Qfloor (9 # 10))))%Q).
Proof.
  split; [discriminate |].
  destruct bracket_is_direction_aware as (_ & H & _).
  apply H. discriminate.
Defined.

(** C10: for a position p with 0 <= p < NUM_STEPS and either direction,
    the two indices handed to STEPS (floor and ceiling of p, then
    [normalize_step]) lie in 0 .. NUM_STEPS - 1; both lookups succeed,
    and a running [step] whose advanced position lies in that range
    returns without an IndexError. *)
Theorem lookup_indices_in_bounds :
  (forall (p : Q) (direction : Z),
      (0 <= p)%Q -> (p < inject_Z StepTable.NUM_STEPS)%Q ->
      let from_idx := fst (StepTable.lookup_indices p direction) in
      let to_idx := snd (StepTable.lookup_indices p direction) in
      (0 <= from_idx <= StepTable.NUM_STEPS - 1)%Z
      /\ (0 <= to_idx <= StepTable.NUM_STEPS - 1)%Z
      /\ StepTable.getitem StepTable.STEPS from_idx
         = nth_error StepTable.STEPS (Z.to_nat from_idx)
      /\ StepTable.getitem StepTable.STEPS to_idx
         = nth_error StepTable.STEPS (Z.to_nat to_idx)
      /\ StepTable.getitem StepTable.STEPS from_idx <> None
      /\ StepTable.getitem StepTable.STEPS to_idx <> None
      /\ StepTable.phase_values p direction <> None)
  /\ (forall (self : StepTable.LinearActuator) (b : board),
      (0 <= StepTable.current_step (StepTable.advance self))%Q ->
      (StepTable.current_step (StepTable.advance self)
       < inject_Z StepTable.NUM_STEPS)%Q ->
      snd (eval (StepTable.step self) b) = StepTable.Returned).
Proof.
  assert (Main : forall (p : Q) (direction : Z),
      (0 <= p)%Q -> (p < inject_Z StepTable.NUM_STEPS)%Q ->
      let from_idx := fst (StepTable.lookup_indices p direction) in
      let to_idx := snd (StepTable.lookup_indices p direction) in
      (0 <= from_idx <= StepTable.NUM_STEPS - 1)%Z
      /\ (0 <= to_idx <= StepTable.NUM_STEPS - 1)%Z
      /\ StepTable.getitem StepTable.STEPS from_idx
         = nth_error StepTable.STEPS (Z.to_nat from_idx)
      /\ StepTable.getitem StepTable.STEPS to_idx
         = nth_error StepTable.STEPS (Z.to_nat to_idx)
      /\ StepTable.getitem StepTable.STEPS from_idx <> None
      /\ StepTable.getitem StepTable.STEPS to_idx <> None
      /\ StepTable.phase_values p direction <> None).
  { intros p direction H0 H1 from_idx to_idx.
    subst from_idx to_idx.
    destruct (lookup_indices_inside p direction H0 H1) as [Hf Ht].
    destruct (getitem_inside (fst (StepTable.lookup_indices p direction)))
      as [_ [rf [Gf Nf]]]; [lia |].
    destruct (getitem_inside (snd (StepTable.lookup_indices p direction)))
      as [_ [rt [Gt Nt]]]; [lia |].
    repeat apply conj; try apply Hf; try apply Ht; try congruence.
    unfold StepTable.phase_values.
    destruct (StepTable.bracket p direction) as [[f t] g].
    revert Gf Gt.
    destruct (StepTable.lookup_indices p direction) as [fi ti]; cbn [fst snd].
    intros Gf Gt. rewrite Gf, Gt. discriminate. }
  split; [exact Main |].
  intros self b H0 H1.
  unfold StepTable.step.
  destruct (StepTable.running self); cbn [negb]; [| reflexivity].
  destruct (Main _ (StepTable.direction (StepTable.advance self)) H0 H1)
    as (_ & _ & _ & _ & _ & _ & HP).
  destruct (StepTable.phase_values _ _) as [[[pa pb] pc] |]; [| contradiction].
  rewrite !eval_bind, eval_ret. reflexivity.
Qed.

Lemma lookup_indices_in_bounds_witness :
  (0 <= 239 # 10)%Q /\ (239 # 10 < inject_Z StepTable.NUM_STEPS)%Q
  /\ (0 <= snd (StepTable.lookup_indices (239 # 10) 1) <= StepTable.NUM_STEPS - 1)%Z.
Proof.
  assert (H0 : (0 <= 239 # 10)%Q) by (vm_compute; discriminate).
  assert (H1 : (239 # 10 < inject_Z StepTable.NUM_STEPS)%Q) by (vm_compute; reflexivity).
  split; [exact H0 | split; [exact H1 |]].
  destruct lookup_indices_in_bounds as [H _].
  destruct (H (239 # 10) 1%Z H0 H1) as (_ & Ht & _). exact Ht.
Defined.

(* ===================================================================== *)
(** ** Properties: the cosine waveform                                    *)
(* ===================================================================== *)

Lemma cos_third_turn : cos (2 * PI / 3) = (- (1 / 2))%R.
Proof.
  replace (2 * PI / 3)%R with (2 * (PI / 3))%R by lra.
  rewrite cos_2PI3. lra.
Qed.

(** C7: at every angle the cosine strategy produces the triple
    a = cos(angle), b = cos(angle - 2*pi/3), c = cos(angle + 2*pi/3)
    (in sine/code.py with angle = degrees * pi / 180), each of them in
    [-1, 1], and hands a, b, c to the phases A, B, C in this order; at
    angle 0 the triple is (1, -1/2, -1/2).  Python's floats are read as
    real numbers. *)
Theorem cosine_phase_values :
  (forall self : Angle.LinearActuator,
      let a := cos (Angle.angle self) in
      let b := cos (Angle.angle self - 2 * PI / 3) in
      let c := cos (Angle.angle self + 2 * PI / 3) in
      Angle.phase_values self = (a, b, c)
      /\ (-1 <= a <= 1 /\ -1 <= b <= 1 /\ -1 <= c <= 1)%R
      /\ (forall board0 : board,
             Angle.running self = true ->
             exec (Angle.update self) board0
             = exec (Angle.apply_phase pwm_ah pwm_al a ;;
                     Angle.apply_phase pwm_bh pwm_bl b ;;
                     Angle.apply_phase pwm_ch pwm_cl c)%io board0))
  /\ (forall self : Sine.LinearActuator,
      let radians := (Sine.degrees self * (PI / 180))%R in
      let a := cos radians in
      let b := cos (radians - 2 * PI / 3) in
      let c := cos (radians + 2 * PI / 3) in
      Sine.phase_values self = (a, b, c)
      /\ (-1 <= a <= 1 /\ -1 <= b <= 1 /\ -1 <= c <= 1)%R
      /\ (forall board0 : board,
             Sine.running self = true ->
             exec (Sine.update self) board0
             = exec (Sine.apply_phase pwm_ah pwm_al a ;;
                     Sine.apply_phase pwm_bh pwm_bl b ;;
                     Sine.apply_phase pwm_ch pwm_cl c)%io board0))
  /\ (forall self : Angle.LinearActuator,
      Angle.angle self = 0%R ->
      Angle.phase_values self = (1, - (1 / 2), - (1 / 2))%R)
  /\ (forall self : Sine.LinearActuator,
      Sine.degrees self = 0%R ->
      Sine.phase_values self = (1, - (1 / 2), - (1 / 2))%R).
Proof.
  assert (Zero : Cosine.phases (2 * PI / 3) 0 = (1, - (1 / 2), - (1 / 2))%R).
  { unfold Cosine.phases.
    replace (0 - 2 * PI / 3)%R with (- (2 * PI / 3))%R by lra.
    replace (0 + 2 * PI / 3)%R with (2 * PI / 3)%R by lra.
    rewrite cos_neg, cos_third_turn, cos_0. reflexivity. }
  repeat apply conj.
  - intros self a b c. subst a b c.
    repeat apply conj; try apply COS_bound; try reflexivity.
    intros board0 Hrun. unfold Angle.update. rewrite Hrun. reflexivity.
  - intros self radians a b c. subst a b c radians.
    repeat apply conj; try apply COS_bound; try reflexivity.
    intros board0 Hrun. unfold Sine.update. rewrite Hrun. reflexivity.
  - intros self H. unfold Angle.phase_values, Angle.PHASE_ANGLE.
    rewrite H. exact Zero.
  - intros self H.
    unfold Sine.phase_values, Sine.PHASE_OFFSET, Sine.DEGREE_TO_RADIAN_MULTIPLIER.
    rewrite H. replace (0 * (PI / 180))%R with 0%R by lra. exact Zero.
Qed.

Lemma cosine_phase_values_witness :
  Angle.angle (eval Angle.init power_on) = 0%R
  /\ Angle.phase_values (eval Angle.init power_on) = (1, - (1 / 2), - (1 / 2))%R.
Proof.
  split; [reflexivity |].
  destruct cosine_phase_values as (_ & _ & H & _).
  apply H. reflexivity.
Defined.

(* ===================================================================== *)
(** ** Properties: dead time                                              *)
(* ===================================================================== *)

Lemma skipn_length_app {A} (l es : list A) : skipn (length l) (l ++ es) = es.
Proof. induction l as [| x l IH]; [reflexivity | exact IH]. Qed.

Lemma emitted_of_log {A} (c : IO A) (b : board) (es : list event) :
  log (exec c b) = log b ++ es -> emitted c b = es.
Proof. intro H. unfold emitted. rewrite H. apply skipn_length_app. Qed.

Lemma log_switch (off on : pwm) (t : Q) (d : Z) (b : board) :
  log (exec (set_duty_cycle off 0 ;; sleep t ;; set_duty_cycle on d)%io b)
  = log b ++ switch_over t off on d.
Proof.
  cbn. destruct off, on; cbn; rewrite <- !app_assoc; reflexivity.
Qed.

Lemma cosine_apply_phase_log (M : Z) (D : Q) (high low : pwm) (value : R) (b : board) :
  log (exec (Cosine.apply_phase M D high low value) b)
  = log b ++ cosine_events M D high low value.
Proof.
  unfold Cosine.apply_phase, cosine_events.
  destruct (Rle_dec 0 value); apply log_switch.
Qed.

Lemma table_apply_phase_log (high low : pwm) (value : Q) (b : board) :
  log (exec (StepTable.apply_phase high low value) b)
  = log b ++ table_events high low value.
Proof.
  unfold StepTable.apply_phase, table_events.
  destruct (Qle_bool 0 value); apply log_switch.
Qed.

(** The log of a sequence of calls is the concatenation of theirs. *)
Lemma apply_each_log {V} (apply : V -> IO unit) (events : V -> list event) :
  (forall v b, log (exec (apply v) b) = log b ++ events v) ->
  forall values b,
    log (exec (apply_each apply values) b) = log b ++ flat_map events values.
Proof.
  intros H values. induction values as [| v rest IH]; intro b.
  - cbn. rewrite app_nil_r. reflexivity.
  - cbn [apply_each flat_map]. rewrite exec_bind, IH, H, app_assoc. reflexivity.
Qed.

Section MonitorFacts.

Variable dead_time : Q.
Variables high low : pwm.
Hypothesis distinct : high <> low.
Hypothesis dead_time_nonneg : (0 <= dead_time)%Q.

Lemma run_app (es1 es2 : list event) :
  forall m,
    Monitor.run dead_time high low m (es1 ++ es2)
    = match Monitor.run dead_time high low m es1 with
      | Some m' => Monitor.run dead_time high low m' es2
      | None => None
      end.
Proof.
  induction es1 as [| e es1 IH]; intro m; [reflexivity |].
  cbn [app Monitor.run].
  destruct (Monitor.observe dead_time high low m e); [apply IH | reflexivity].
Qed.

(** A switch-over towards the high side passes the monitor. *)
Lemma run_switch_to_high (m : Monitor.half_bridge) (d : Z) :
  Monitor.rested m ->
  exists m',
    Monitor.run dead_time high low m (switch_over dead_time low high d) = Some m'
    /\ Monitor.rested m'.
Proof.
  intros [Hh Hl].
  assert (Elh : pwm_eqb low high = false) by (apply pwm_eqb_neq; congruence).
  unfold switch_over. cbn [Monitor.run].
  unfold Monitor.observe at 1. unfold Monitor.advance.
  rewrite Elh, pwm_eqb_refl. cbn [Z.eqb].
  unfold Monitor.both_on at 1. cbn [Monitor.low_duty Monitor.high_duty Z.eqb negb].
  rewrite andb_false_r.
  unfold Monitor.observe at 1. unfold Monitor.advance.
  unfold Monitor.both_on at 1. cbn [Monitor.low_duty Monitor.high_duty
                                     Monitor.low_rest Monitor.high_rest Z.eqb negb].
  rewrite andb_false_r.
  unfold Monitor.observe. unfold Monitor.advance.
  rewrite pwm_eqb_refl.
  cbn [Monitor.low_duty Monitor.high_duty Monitor.low_rest Monitor.high_rest Z.eqb].
  set (lr := if (Monitor.low_duty m =? 0)%Z then Monitor.low_rest m else 0%Q).
  assert (Hlr : (0 <= lr)%Q) by (subst lr; destruct (Monitor.low_duty m =? 0)%Z; lra).
  assert (Hq : Qle_bool dead_time (lr + dead_time) = true)
    by (apply Qle_bool_iff; lra).
  rewrite Hq. cbn [andb].
  destruct (d =? 0)%Z.
  - unfold Monitor.both_on; cbn. eexists. split; [reflexivity |].
    split; cbn; [destruct (Monitor.high_duty m =? 0)%Z |]; lra.
  - unfold Monitor.both_on; cbn. rewrite andb_false_r.
    eexists. split; [reflexivity |]. split; cbn; lra.
Qed.

(** A switch-over towards the low side passes the monitor. *)
Lemma run_switch_to_low (m : Monitor.half_bridge) (d : Z) :
  Monitor.rested m ->
  exists m',
    Monitor.run dead_time high low m (switch_over dead_time high low d) = Some m'
    /\ Monitor.rested m'.
Proof.
  intros [Hh Hl].
  assert (Elh : pwm_eqb low high = false) by (apply pwm_eqb_neq; congruence).
  unfold switch_over. cbn [Monitor.run].
  unfold Monitor.observe at 1. unfold Monitor.advance.
  rewrite pwm_eqb_refl. cbn [Z.eqb].
  unfold Monitor.both_on at 1. cbn [Monitor.low_duty Monitor.high_duty Z.eqb negb].
  cbn [andb].
  unfold Monitor.observe at 1. unfold Monitor.advance.
  unfold Monitor.both_on at 1. cbn [Monitor.low_duty Monitor.high_duty
                                     Monitor.low_rest Monitor.high_rest Z.eqb negb].
  cbn [andb].
  unfold Monitor.observe. unfold Monitor.advance.
  rewrite Elh, pwm_eqb_refl.
  cbn [Monitor.low_duty Monitor.high_duty Monitor.low_rest Monitor.high_rest Z.eqb].
  set (hr := if (Monitor.high_duty m =? 0)%Z then Monitor.high_rest m else 0%Q).
  assert (Hhr : (0 <= hr)%Q) by (subst hr; destruct (Monitor.high_duty m =? 0)%Z; lra).
  assert (Hq : Qle_bool dead_time (hr + dead_time) = true)
    by (apply Qle_bool_iff; lra).
  rewrite Hq. cbn [andb].
  destruct (d =? 0)%Z.
  - unfold Monitor.both_on; cbn. eexists. split; [reflexivity |].
    split; cbn; [| destruct (Monitor.low_duty m =? 0)%Z]; lra.
  - unfold Monitor.both_on; cbn.
    eexists. split; [reflexivity |]. split; cbn; lra.
Qed.

(** Any sequence of switch-overs of this phase passes the monitor. *)
Lemma run_switches {V} (events : V -> list event) :
  (forall v, (exists d, events v = switch_over dead_time low high d)
             \/ (exists d, events v = switch_over dead_time high low d)) ->
  forall values m,
    Monitor.rested m ->
    exists m',
      Monitor.run dead_time high low m (flat_map events values) = Some m'
      /\ Monitor.rested m'.
Proof.
  intros Hev values. induction values as [| v rest IH]; intros m Hm.
  - exists m. split; [reflexivity | exact Hm].
  - cbn [flat_map]. rewrite run_app.
    destruct (Hev v) as [[d E] | [d E]]; rewrite E.
    + destruct (run_switch_to_high m d Hm) as [m1 [R1 H1]]. rewrite R1.
      apply IH. exact H1.
    + destruct (run_switch_to_low m d Hm) as [m1 [R1 H1]]. rewrite R1.
      apply IH. exact H1.
Qed.

End MonitorFacts.

Section ReplayFacts.

Variables high low : pwm.
Hypothesis distinct : high <> low.

(** The monitor follows the duty cycles of the board. *)
Lemma observe_tracks (dead_time : Q) (m m' : Monitor.half_bridge)
      (e : event) (b : board) :
  Monitor.high_duty m = duty_cycle high b ->
  Monitor.low_duty m = duty_cycle low b ->
  Monitor.observe dead_time high low m e = Some m' ->
  Monitor.high_duty m' = duty_cycle high (replay1 b e)
  /\ Monitor.low_duty m' = duty_cycle low (replay1 b e)
  /\ one_side_off high low (replay1 b e).
Proof.
  intros Hh Hl Hobs.
  assert (Hadv : Monitor.advance dead_time high low m e = Some m'
                 /\ Monitor.both_on m' = false).
  { unfold Monitor.observe in Hobs.
    destruct (Monitor.advance dead_time high low m e) as [m1 |]; [| discriminate].
    destruct (Monitor.both_on m1) eqn:B; [discriminate |].
    injection Hobs as <-. split; [reflexivity | exact B]. }
  destruct Hadv as [Hadv Hoff].
  assert (Track : Monitor.high_duty m' = duty_cycle high (replay1 b e)
                  /\ Monitor.low_duty m' = duty_cycle low (replay1 b e)).
  { destruct e as [p d | t]; cbn [replay1 Monitor.advance] in *.
    - rewrite !duty_cycle_store.
      destruct (pwm_eqb p high) eqn:Eh.
      + apply pwm_eqb_eq in Eh. subst p. rewrite pwm_eqb_refl.
        rewrite (pwm_eqb_neq low high) by congruence.
        destruct (d =? 0)%Z eqn:Ed.
        * apply Z.eqb_eq in Ed. injection Hadv as <-. cbn. split; congruence.
        * destruct (_ && _); [| discriminate].
          injection Hadv as <-. cbn. split; congruence.
      + destruct (pwm_eqb p low) eqn:El.
        * apply pwm_eqb_eq in El. subst p. rewrite pwm_eqb_refl.
          rewrite (pwm_eqb_neq high low) by congruence.
          destruct (d =? 0)%Z eqn:Ed.
          -- apply Z.eqb_eq in Ed. injection Hadv as <-. cbn. split; congruence.
          -- destruct (_ && _); [| discriminate].
             injection Hadv as <-. cbn. split; congruence.
        * injection Hadv as <-.
          assert (Xh : pwm_eqb high p = false).
          { apply pwm_eqb_neq. intro X. subst p. rewrite pwm_eqb_refl in Eh.
            discriminate. }
          assert (Xl : pwm_eqb low p = false).
          { apply pwm_eqb_neq. intro X. subst p. rewrite pwm_eqb_refl in El.
            discriminate. }
          rewrite Xh, Xl. split; assumption.
    - injection Hadv as <-. cbn. split; assumption. }
  destruct Track as [Th Tl]. repeat split; try assumption.
  unfold one_side_off. rewrite <- Th, <- Tl.
  unfold Monitor.both_on in Hoff.
  apply andb_false_iff in Hoff. destruct Hoff as [H | H];
    apply negb_false_iff in H; apply Z.eqb_eq in H; tauto.
Qed.

(** On a log the monitor accepts, at most one side is on after every
    event. *)
Lemma run_tracks (dead_time : Q) (es : list event) :
  forall (m m' : Monitor.half_bridge) (b : board) (n : nat),
    Monitor.high_duty m = duty_cycle high b ->
    Monitor.low_duty m = duty_cycle low b ->
    one_side_off high low b ->
    Monitor.run dead_time high low m es = Some m' ->
    one_side_off high low (replay (firstn n es) b).
Proof.
  induction es as [| e es IH]; intros m m' b n Hh Hl Hb Hrun.
  - rewrite firstn_nil. exact Hb.
  - destruct n as [| n]; [exact Hb |].
    cbn [firstn]. unfold replay. cbn [fold_left].
    cbn [Monitor.run] in Hrun.
    destruct (Monitor.observe dead_time high low m e) as [m1 |] eqn:Hobs;
      [| discriminate].
    destruct (observe_tracks dead_time m m1 e b Hh Hl Hobs) as (Th & Tl & Hoff).
    apply (IH m1 m' (replay1 b e) n Th Tl Hoff Hrun).
Qed.

End ReplayFacts.

(** The monitor does reject what it is meant to reject: energising the
    high side right after the low side was on, with no pause or with a
    pause shorter than the dead time. *)
Example monitor_rejects_missing_pause :
  Monitor.accepts Angle.DEAD_TIME pwm_ah pwm_al (Monitor.mkBridge 0 7 0 0)
    [DutyCycle pwm_al 0; DutyCycle pwm_ah 9] = false
  /\ Monitor.accepts Angle.DEAD_TIME pwm_ah pwm_al (Monitor.mkBridge 0 7 0 0)
       [DutyCycle pwm_al 0; Sleep (1 # 2000000); DutyCycle pwm_ah 9] = false
  /\ Monitor.accepts Angle.DEAD_TIME pwm_ah pwm_al (Monitor.mkBridge 0 7 0 0)
       [Sleep (1 # 1000000); DutyCycle pwm_ah 9] = false
  /\ Monitor.accepts Angle.DEAD_TIME pwm_ah pwm_al (Monitor.mkBridge 0 7 0 0)
       [DutyCycle pwm_al 0; Sleep (1 # 1000000); DutyCycle pwm_ah 9] = true.
Proof. repeat split. Qed.

Lemma accepts_switches {V} (dead_time : Q) (high low : pwm)
      (apply : V -> IO unit) (events : V -> list event) :
  high <> low -> (0 <= dead_time)%Q ->
  (forall v b, log (exec (apply v) b) = log b ++ events v) ->
  (forall v, (exists d, events v = switch_over dead_time low high d)
             \/ (exists d, events v = switch_over dead_time high low d)) ->
  forall (values : list V) (b : board),
    let es := emitted (apply_each apply values) b in
    Monitor.accepts dead_time high low (Monitor.watch b high low) es = true
    /\ (one_side_off high low b ->
        forall n, one_side_off high low (replay (firstn n es) b)).
Proof.
  intros Hne Hdt Hlog Hsw values b es.
  assert (Es : es = flat_map events values).
  { apply emitted_of_log. apply apply_each_log. exact Hlog. }
  assert (Hm : Monitor.rested (Monitor.watch b high low)) by (split; cbn; lra).
  destruct (run_switches dead_time high low Hne Hdt events Hsw values _ Hm)
    as [m' [Hrun _]].
  rewrite Es. split.
  - unfold Monitor.accepts. rewrite Hrun. reflexivity.
  - intros Hb n.
    apply (run_tracks high low Hne dead_time _ (Monitor.watch b high low) m' b n);
      try reflexivity; assumption.
Qed.

(** C8: every [apply_phase] call writes, in this order, a zero to the
    side that must be off, then sleeps DEAD_TIME, then writes the duty of
    the side to energise.  So, for any sequence of calls on one phase
    (distinct high and low outputs), each write that energises a side
    comes after a write of zero to the other side and after at least
    DEAD_TIME of sleep since then (the monitor accepts the log), and,
    from a board on which the two sides are not both on, they are never
    both on after any event.  DEAD_TIME is positive.  Time is the time
    slept, as recorded in the log. *)
Theorem dead_time_ordering :
  (forall (high low : pwm) (value : R) (b : board),
      emitted (Angle.apply_phase high low value) b
      = (if Rle_dec 0 value
         then [DutyCycle low 0; Sleep Angle.DEAD_TIME;
               DutyCycle high (Cosine.int (value * IZR Angle.PWM_MAX))]
         else [DutyCycle high 0; Sleep Angle.DEAD_TIME;
               DutyCycle low (Cosine.int (- value * IZR Angle.PWM_MAX))])
      /\ emitted (Sine.apply_phase high low value) b
         = emitted (Angle.apply_phase high low value) b)
  /\ (forall (high low : pwm) (values : list R) (b : board),
      high <> low ->
      let es := emitted (apply_each (Angle.apply_phase high low) values) b in
      Monitor.accepts Angle.DEAD_TIME high low (Monitor.watch b high low) es = true
      /\ (one_side_off high low b ->
          forall n, one_side_off high low (replay (firstn n es) b)))
  /\ (forall (high low : pwm) (value : Q) (b : board),
      emitted (StepTable.apply_phase high low value) b
      = (if Qle_bool 0 value
         then [DutyCycle low 0; Sleep StepTable.DEAD_TIME;
               DutyCycle high
                 (StepTable.int (value / 100 * inject_Z StepTable.PWM_MAX))]
         else [DutyCycle high 0; Sleep StepTable.DEAD_TIME;
               DutyCycle low
                 (StepTable.int (-1 * (value / 100) * inject_Z StepTable.PWM_MAX))]))
  /\ (forall (high low : pwm) (values : list Q) (b : board),
      high <> low ->
      let es := emitted (apply_each (StepTable.apply_phase high low) values) b in
      Monitor.accepts StepTable.DEAD_TIME high low (Monitor.watch b high low) es = true
      /\ (one_side_off high low b ->
          forall n, one_side_off high low (replay (firstn n es) b)))
  /\ (0 < Angle.DEAD_TIME)%Q /\ (0 < Sine.DEAD_TIME)%Q /\ (0 < StepTable.DEAD_TIME)%Q.
Proof.
  repeat apply conj; try reflexivity.
  - intros high low value b. split; [| reflexivity].
    apply emitted_of_log. unfold Angle.apply_phase.
    rewrite cosine_apply_phase_log. unfold cosine_events.
    destruct (Rle_dec 0 value); reflexivity.
  - intros high low values b Hne.
    apply (accepts_switches Angle.DEAD_TIME high low _
             (cosine_events Angle.PWM_MAX Angle.DEAD_TIME high low)); try assumption.
    + vm_compute. discriminate.
    + intros v b0. apply cosine_apply_phase_log.
    + intro v. unfold cosine_events.
      destruct (Rle_dec 0 v); [left | right]; eexists; reflexivity.
  - intros high low value b.
    apply emitted_of_log. rewrite table_apply_phase_log. unfold table_events.
    destruct (Qle_bool 0 value); reflexivity.
  - intros high low values b Hne.
    apply (accepts_switches StepTable.DEAD_TIME high low _
             (table_events high low)); try assumption.
    + vm_compute. discriminate.
    + intros v b0. apply table_apply_phase_log.
    + intro v. unfold table_events.
      destruct (Qle_bool 0 v); [left | right]; eexists; reflexivity.
Qed.

Lemma dead_time_ordering_witness :
  pwm_ah <> pwm_al
  /\ Monitor.accepts Angle.DEAD_TIME pwm_ah pwm_al
       (Monitor.watch power_on pwm_ah pwm_al)
       (emitted (apply_each (Angle.apply_phase pwm_ah pwm_al)
                            [(1 / 2)%R; (- (1 / 2))%R; 1%R]) power_on) = true.
Proof.
  split; [discriminate |].
  destruct dead_time_ordering as (_ & H & _).
  destruct (H pwm_ah pwm_al [(1 / 2)%R; (- (1 / 2))%R; 1%R] power_on) as [Hacc _];
    [discriminate | exact Hacc].
Defined.

(* ===================================================================== *)
(** ** Further properties: the cosine waveform and its duty cycles        *)
(* ===================================================================== *)

Lemma phases_sum (radians : R) :
  (cos radians + cos (radians - 2 * PI / 3) + cos (radians + 2 * PI / 3) = 0)%R.
Proof.
  rewrite cos_minus, cos_plus, cos_third_turn. lra.
Qed.

(** X2: the three phase values of the cosine scripts are balanced: at
    every position their sum is zero. *)
Theorem cosine_phases_balanced :
  (forall self : Angle.LinearActuator,
      let '(a, b, c) := Angle.phase_values self in (a + b + c = 0)%R)
  /\ (forall self : Sine.LinearActuator,
      let '(a, b, c) := Sine.phase_values self in (a + b + c = 0)%R).
Proof.
  split; intro self; cbn; apply phases_sum.
Qed.

(** The log of [update], in the three cases. *)
Lemma output_off_emitted (b : board) :
  emitted output_off b
  = [DutyCycle pwm_ah 0; DutyCycle pwm_al 0; DutyCycle pwm_bh 0;
     DutyCycle pwm_bl 0; DutyCycle pwm_ch 0; DutyCycle pwm_cl 0].
Proof. apply emitted_of_log. apply output_off_log. Qed.

Lemma three_phases_log (M : Z) (D : Q) (a b c : R) (b0 : board) :
  log (exec (Cosine.apply_phase M D pwm_ah pwm_al a ;;
             Cosine.apply_phase M D pwm_bh pwm_bl b ;;
             Cosine.apply_phase M D pwm_ch pwm_cl c)%io b0)
  = log b0 ++ cosine_events M D pwm_ah pwm_al a
           ++ cosine_events M D pwm_bh pwm_bl b
           ++ cosine_events M D pwm_ch pwm_cl c.
Proof.
  rewrite !exec_bind, !cosine_apply_phase_log, <- !app_assoc. reflexivity.
Qed.

Lemma cosine_events_in_range (high low : pwm) (v : R) :
  (-1 <= v <= 1)%R ->
  Forall (duty_in_range 65535) (cosine_events 65535 (1 # 1000000) high low v).
Proof.
  intro Hv. unfold cosine_events, switch_over.
  destruct (Rle_dec 0 v);
    (apply Forall_cons; [cbn; lia |
     apply Forall_cons; [exact I |
     apply Forall_cons; [cbn; apply int_le_bound; lra | apply Forall_nil]]]).
Qed.

Lemma off_events_in_range (M : Z) :
  (0 <= M)%Z ->
  Forall (duty_in_range M)
    [DutyCycle pwm_ah 0; DutyCycle pwm_al 0; DutyCycle pwm_bh 0;
     DutyCycle pwm_bl 0; DutyCycle pwm_ch 0; DutyCycle pwm_cl 0].
Proof.
  intro H. repeat (apply Forall_cons; [cbn; lia |]). apply Forall_nil.
Qed.

(** X3: whatever the position and whether the actuator runs or not,
    every duty cycle that [update] of the cosine scripts assigns lies in
    0 .. PWM_MAX (the 16-bit range of the outputs). *)
Theorem cosine_update_duty_in_range :
  (forall (self : Angle.LinearActuator) (b : board),
      Forall (duty_in_range Angle.PWM_MAX) (emitted (Angle.update self) b))
  /\ (forall (self : Sine.LinearActuator) (b : board),
      Forall (duty_in_range Sine.PWM_MAX) (emitted (Sine.update self) b)).
Proof.
  split; intros self b.
  - unfold Angle.update. destruct (Angle.running self); cbn [negb].
    + unfold Angle.phase_values, Cosine.phases, Angle.apply_phase.
      rewrite (emitted_of_log _ _ _ (three_phases_log _ _ _ _ _ b)).
      unfold Angle.PWM_MAX, Angle.DEAD_TIME.
      repeat (apply Forall_app; split); apply cosine_events_in_range; apply COS_bound.
    + rewrite output_off_emitted. apply off_events_in_range. discriminate.
  - unfold Sine.update. destruct (Sine.running self); cbn [negb].
    + unfold Sine.phase_values, Cosine.phases, Sine.apply_phase.
      rewrite (emitted_of_log _ _ _ (three_phases_log _ _ _ _ _ b)).
      unfold Sine.PWM_MAX, Sine.DEAD_TIME.
      repeat (apply Forall_app; split); apply cosine_events_in_range; apply COS_bound.
    + rewrite output_off_emitted. apply off_events_in_range. discriminate.
Qed.

(** The six duty cycles after the three [apply_phase] calls of
    [update]. *)
Lemma three_phases_duty (M : Z) (D : Q) (a b c : R) (b0 : board) (p : pwm) :
  duty_cycle p
    (exec (Cosine.apply_phase M D pwm_ah pwm_al a ;;
           Cosine.apply_phase M D pwm_bh pwm_bl b ;;
           Cosine.apply_phase M D pwm_ch pwm_cl c)%io b0)
  = match p with
    | pwm_ah => if Rle_dec 0 a then Cosine.int (a * IZR M) else 0%Z
    | pwm_al => if Rle_dec 0 a then 0%Z else Cosine.int (- a * IZR M)
    | pwm_bh => if Rle_dec 0 b then Cosine.int (b * IZR M) else 0%Z
    | pwm_bl => if Rle_dec 0 b then 0%Z else Cosine.int (- b * IZR M)
    | pwm_ch => if Rle_dec 0 c then Cosine.int (c * IZR M) else 0%Z
    | pwm_cl => if Rle_dec 0 c then 0%Z else Cosine.int (- c * IZR M)
    end.
Proof.
  rewrite !exec_bind, !cosine_apply_phase_duty.
  destruct p; cbn [pwm_eqb];
    destruct (Rle_dec 0 a); destruct (Rle_dec 0 b); destruct (Rle_dec 0 c);
    reflexivity.
Qed.

Lemma three_phases_one_side_off (M : Z) (D : Q) (a b c : R) (b0 : board) :
  let b' := exec (Cosine.apply_phase M D pwm_ah pwm_al a ;;
                  Cosine.apply_phase M D pwm_bh pwm_bl b ;;
                  Cosine.apply_phase M D pwm_ch pwm_cl c)%io b0 in
  one_side_off pwm_ah pwm_al b'
  /\ one_side_off pwm_bh pwm_bl b'
  /\ one_side_off pwm_ch pwm_cl b'.
Proof.
  unfold one_side_off. rewrite !three_phases_duty.
  destruct (Rle_dec 0 a); destruct (Rle_dec 0 b); destruct (Rle_dec 0 c); tauto.
Qed.

(** X4: [update] of the cosine scripts assigns all six duty cycles: the
    duty cycles it leaves depend on the actuator only, not on what the
    outputs were before, and in each of the three phases at most one
    side is left on; this holds whether the actuator runs or not. *)
Theorem cosine_update_overwrites_outputs :
  (forall (self : Angle.LinearActuator) (b b' : board),
      (forall p, duty_cycle p (exec (Angle.update self) b)
                 = duty_cycle p (exec (Angle.update self) b'))
      /\ one_side_off pwm_ah pwm_al (exec (Angle.update self) b)
      /\ one_side_off pwm_bh pwm_bl (exec (Angle.update self) b)
      /\ one_side_off pwm_ch pwm_cl (exec (Angle.update self) b))
  /\ (forall (self : Sine.LinearActuator) (b b' : board),
      (forall p, duty_cycle p (exec (Sine.update self) b)
                 = duty_cycle p (exec (Sine.update self) b'))
      /\ one_side_off pwm_ah pwm_al (exec (Sine.update self) b)
      /\ one_side_off pwm_bh pwm_bl (exec (Sine.update self) b)
      /\ one_side_off pwm_ch pwm_cl (exec (Sine.update self) b)).
Proof.
  split; intros self b b'.
  - unfold Angle.update. destruct (Angle.running self); cbn [negb].
    + unfold Angle.apply_phase.
      destruct (Angle.phase_values self) as [[pa pb] pc].
      split; [intro p; rewrite !three_phases_duty; reflexivity |].
      apply three_phases_one_side_off.
    + split; [intro p; rewrite !output_off_all_off; reflexivity |].
      unfold one_side_off. rewrite !output_off_all_off. tauto.
  - unfold Sine.update. destruct (Sine.running self); cbn [negb].
    + unfold Sine.apply_phase.
      destruct (Sine.phase_values self) as [[pa pb] pc].
      split; [intro p; rewrite !three_phases_duty; reflexivity |].
      apply three_phases_one_side_off.
    + split; [intro p; rewrite !output_off_all_off; reflexivity |].
      unfold one_side_off. rewrite !output_off_all_off. tauto.
Qed.

(* ===================================================================== *)
(** ** Further properties: the interpolated table                         *)
(* ===================================================================== *)

Lemma Qle_bool_false (x y : Q) : Qle_bool x y = false -> (y < x)%Q.
Proof.
  intro H. apply Qnot_le_lt. intro L. apply Qle_bool_iff in L. congruence.
Qed.



Ltac decide_Qle H :=
  first [apply Qle_bool_iff in H | apply Qle_bool_false in H].

(** Every entry of the table lies on the scale -100 .. 100. *)
Lemma STEPS_in_scale (r : StepTable.row) :
  In r StepTable.STEPS ->
  let '(a, b, c) := r in
  (-100 <= a <= 100 /\ -100 <= b <= 100 /\ -100 <= c <= 100)%Z.
Proof.
  unfold StepTable.STEPS. cbn [In].
  intro H. repeat (destruct H as [<- | H]; [lia |]). contradiction.
Qed.

Lemma getitem_In {A} (l : list A) (i : Z) (x : A) :
  StepTable.getitem l i = Some x -> In x l.
Proof.
  unfold StepTable.getitem.
  destruct (_ && _); [apply nth_error_In |].
  destruct (_ && _); [apply nth_error_In | discriminate].
Qed.

(** Between two end values inside an interval, the interpolated value
    is inside it too. *)
Lemma interpolate_value_within (lo hi f t g : Q) :
  (lo <= f)%Q -> (f <= hi)%Q -> (lo <= t)%Q -> (t <= hi)%Q ->
  (lo <= StepTable.interpolate_value f t g
   /\ StepTable.interpolate_value f t g <= hi)%Q.
Proof.
  intros F0 F1 T0 T1. unfold StepTable.interpolate_value.
  destruct (Qeq_bool f t); [split; assumption |].
  destruct (Qle_bool g 0) eqn:E0; [split; assumption |].
  destruct (Qle_bool 1 g) eqn:E1; [split; assumption |].
  decide_Qle E0. decide_Qle E1. split; nra.
Qed.

Lemma interpolate_value_in_scale (f t : Z) (g : Q) :
  (-100 <= f <= 100)%Z -> (-100 <= t <= 100)%Z ->
  (- (100) <= StepTable.interpolate_value (inject_Z f) (inject_Z t) g
   /\ StepTable.interpolate_value (inject_Z f) (inject_Z t) g <= 100)%Q.
Proof.
  intros Hf Ht.
  change (- (100))%Q with (inject_Z (-100)). change 100%Q with (inject_Z 100).
  apply interpolate_value_within; rewrite <- Zle_Qle; lia.
Qed.

Lemma table_events_in_range (high low : pwm) (v : Q) :
  (- (100) <= v)%Q -> (v <= 100)%Q ->
  Forall (duty_in_range StepTable.PWM_MAX) (table_events high low v).
Proof.
  intros Hl Hu. unfold table_events, switch_over, StepTable.DEAD_TIME, StepTable.PWM_MAX.
  assert (Range : forall x : Q,
             (0 <= x)%Q -> (x <= 65535)%Q -> (0 <= StepTable.int x <= 65535)%Z).
  { intros x X0 X1. destruct (table_int_nonneg_bounds x X0) as [B1 B2]. split.
    - apply Z.lt_succ_r. rewrite Zlt_Qlt. unfold Z.succ. rewrite inject_Z_plus.
      change (inject_Z 0) with 0%Q. change (inject_Z 1) with 1%Q. lra.
    - rewrite Zle_Qle. change (inject_Z 65535) with 65535%Q. lra. }
  destruct (Qle_bool 0 v) eqn:E; decide_Qle E;
    (apply Forall_cons; [cbn; lia |
     apply Forall_cons; [exact I |
     apply Forall_cons; [cbn; apply Range | apply Forall_nil]]]);
    unfold inject_Z;
    setoid_replace (v / 100)%Q with (v * (1 # 100))%Q by field; lra.
Qed.

Lemma table_three_phases_log (a b c : Q) (b0 : board) :
  log (exec (StepTable.apply_phase pwm_ah pwm_al a ;;
             StepTable.apply_phase pwm_bh pwm_bl b ;;
             StepTable.apply_phase pwm_ch pwm_cl c ;;
             ret tt)%io b0)
  = log b0 ++ table_events pwm_ah pwm_al a
           ++ table_events pwm_bh pwm_bl b
           ++ table_events pwm_ch pwm_cl c.
Proof.
  rewrite !exec_bind, exec_ret, !table_apply_phase_log, <- !app_assoc. reflexivity.
Qed.

(** The board [step] of the table script leaves, in its three cases. *)
Lemma table_step_exec (self : StepTable.LinearActuator) (b : board) :
  exec (StepTable.step self) b
  = if negb (StepTable.running self) then exec output_off b
    else match StepTable.phase_values
                 (StepTable.current_step (StepTable.advance self))
                 (StepTable.direction (StepTable.advance self)) with
         | None => b
         | Some (pa, pb, pc) =>
             exec (StepTable.apply_phase pwm_ah pwm_al pa ;;
                   StepTable.apply_phase pwm_bh pwm_bl pb ;;
                   StepTable.apply_phase pwm_ch pwm_cl pc ;;
                   ret tt)%io b
         end.
Proof.
  unfold StepTable.step.
  destruct (negb (StepTable.running self)); [reflexivity |].
  destruct (StepTable.phase_values _ _) as [[[pa pb] pc] |]; [| reflexivity].
  rewrite !exec_bind. reflexivity.
Qed.

Lemma phase_values_in_scale (position : Q) (direction : Z) (a b c : Q) :
  StepTable.phase_values position direction = Some (a, b, c) ->
  (- (100) <= a /\ a <= 100)%Q /\ (- (100) <= b /\ b <= 100)%Q
  /\ (- (100) <= c /\ c <= 100)%Q.
Proof.
  rewrite phase_values_unfold.
  destruct (StepTable.bracket position direction) as [[fi ti] g].
  destruct (StepTable.getitem _ _) as [[[fa fb] fc] |] eqn:Gf; [| discriminate].
  destruct (StepTable.getitem StepTable.STEPS (StepTable.normalize_step ti))
    as [[[ta tb] tc] |] eqn:Gt; [| discriminate].
  apply getitem_In in Gf, Gt.
  apply STEPS_in_scale in Gf, Gt.
  unfold StepTable.interpolate_row. intro H. injection H as <- <- <-.
  repeat split; apply interpolate_value_in_scale; lia.
Qed.

(** X7: whatever the position and the direction, the phase values of
    the table script, when the lookups succeed, lie on the table's scale
    -100 .. 100, and every duty cycle that [step] assigns lies in
    0 .. PWM_MAX; this holds for every actuator and every board. *)
Theorem table_step_duty_in_range :
  (forall (position : Q) (direction : Z) (a b c : Q),
      StepTable.phase_values position direction = Some (a, b, c) ->
      (- (100) <= a /\ a <= 100)%Q /\ (- (100) <= b /\ b <= 100)%Q
      /\ (- (100) <= c /\ c <= 100)%Q)
  /\ (forall (self : StepTable.LinearActuator) (b : board),
      Forall (duty_in_range StepTable.PWM_MAX) (emitted (StepTable.step self) b)).
Proof.
  split; [exact phase_values_in_scale |].
  intros self b. unfold emitted. rewrite table_step_exec.
  destruct (negb (StepTable.running self)).
  - fold (emitted output_off b). rewrite output_off_emitted.
    apply off_events_in_range. discriminate.
  - destruct (StepTable.phase_values _ _) as [[[pa pb] pc] |] eqn:P.
    + rewrite table_three_phases_log, skipn_length_app.
      destruct (phase_values_in_scale _ _ _ _ _ P) as ([A1 A2] & [B1 B2] & [C1 C2]).
      repeat (apply Forall_app; split); apply table_events_in_range; assumption.
    + replace (skipn (length (log b)) (log b)) with (@nil event);
        [apply Forall_nil |].
      symmetry. rewrite <- (app_nil_r (log b)) at 2. apply skipn_length_app.
Qed.

Lemma table_step_duty_in_range_witness :
  StepTable.phase_values (1 # 10) 1 = Some (275 # 10, 0 # 1, -725 # 10)%Q
  /\ (- (100) <= 275 # 10 /\ 275 # 10 <= 100)%Q.
Proof.
  assert (P : StepTable.phase_values (1 # 10) 1
              = Some (275 # 10, 0 # 1, -725 # 10)%Q) by (vm_compute; reflexivity).
  split; [exact P |].
  destruct table_step_duty_in_range as [H _].
  exact (proj1 (H _ _ _ _ _ P)).
Defined.

Lemma table_three_phases_duty (a b c : Q) (b0 : board) (p : pwm) :
  duty_cycle p
    (exec (StepTable.apply_phase pwm_ah pwm_al a ;;
           StepTable.apply_phase pwm_bh pwm_bl b ;;
           StepTable.apply_phase pwm_ch pwm_cl c ;;
           ret tt)%io b0)
  = let duty v := StepTable.int (v / 100 * inject_Z StepTable.PWM_MAX) in
    let duty' v := StepTable.int (-1 * (v / 100) * inject_Z StepTable.PWM_MAX) in
    match p with
    | pwm_ah => if Qle_bool 0 a then duty a else 0%Z
    | pwm_al => if Qle_bool 0 a then 0%Z else duty' a
    | pwm_bh => if Qle_bool 0 b then duty b else 0%Z
    | pwm_bl => if Qle_bool 0 b then 0%Z else duty' b
    | pwm_ch => if Qle_bool 0 c then duty c else 0%Z
    | pwm_cl => if Qle_bool 0 c then 0%Z else duty' c
    end.
Proof.
  rewrite !exec_bind, exec_ret, !table_apply_phase_duty.
  destruct p; cbn [pwm_eqb];
    destruct (Qle_bool 0 a); destruct (Qle_bool 0 b); destruct (Qle_bool 0 c);
    reflexivity.
Qed.

Lemma table_step_completion (self : StepTable.LinearActuator) (b : board) :
  snd (eval (StepTable.step self) b)
  = if negb (StepTable.running self) then StepTable.Returned
    else match StepTable.phase_values
                 (StepTable.current_step (StepTable.advance self))
                 (StepTable.direction (StepTable.advance self)) with
         | None => StepTable.IndexError
         | Some _ => StepTable.Returned
         end.
Proof.
  unfold StepTable.step.
  destruct (negb (StepTable.running self)); [reflexivity |].
  destruct (StepTable.phase_values _ _) as [[[pa pb] pc] |]; [| reflexivity].
  rewrite !eval_bind. reflexivity.
Qed.

(** X8: [step] of the table script either raises an IndexError before
    it has touched any output (the board and its log are as before), or
    returns after assigning all six duty cycles: then the duty cycles
    depend on the actuator only, not on the board before, and in each
    phase at most one side is left on. *)
Theorem table_step_outputs (self : StepTable.LinearActuator) (b : board) :
  (snd (eval (StepTable.step self) b) = StepTable.IndexError ->
   exec (StepTable.step self) b = b)
  /\ (snd (eval (StepTable.step self) b) = StepTable.Returned ->
      (forall (b' : board) (p : pwm),
          duty_cycle p (exec (StepTable.step self) b)
          = duty_cycle p (exec (StepTable.step self) b'))
      /\ one_side_off pwm_ah pwm_al (exec (StepTable.step self) b)
      /\ one_side_off pwm_bh pwm_bl (exec (StepTable.step self) b)
      /\ one_side_off pwm_ch pwm_cl (exec (StepTable.step self) b)).
Proof.
  rewrite table_step_completion.
  split; intro H.
  - rewrite table_step_exec.
    destruct (negb (StepTable.running self)); [discriminate |].
    destruct (StepTable.phase_values _ _); [discriminate | reflexivity].
  - split.
    + intros b' p. rewrite !table_step_exec.
      destruct (negb (StepTable.running self)).
      * rewrite !output_off_all_off. reflexivity.
      * destruct (StepTable.phase_values _ _) as [[[pa pb] pc] |]; [| discriminate].
        rewrite !table_three_phases_duty. reflexivity.
    + rewrite table_step_exec.
      destruct (negb (StepTable.running self)).
      * unfold one_side_off. rewrite !output_off_all_off. tauto.
      * destruct (StepTable.phase_values _ _) as [[[pa pb] pc] |]; [| discriminate].
        unfold one_side_off. rewrite !table_three_phases_duty. cbv zeta.
        destruct (Qle_bool 0 pa); destruct (Qle_bool 0 pb); destruct (Qle_bool 0 pc);
          tauto.
Qed.

Lemma table_step_outputs_witness :
  snd (eval (StepTable.step (StepTable.mkActuator true 100 99 (1 # 10) 1)) power_on)
  = StepTable.IndexError
  /\ exec (StepTable.step (StepTable.mkActuator true 100 99 (1 # 10) 1)) power_on
     = power_on.
Proof.
  assert (E : snd (eval (StepTable.step (StepTable.mkActuator true 100 99 (1 # 10) 1))
                        power_on) = StepTable.IndexError) by (vm_compute; reflexivity).
  split; [exact E |].
  exact (proj1 (table_step_outputs _ power_on) E).
Defined.

(* ===================================================================== *)
(** ** Further properties: whole cycles                                   *)
(* ===================================================================== *)

(** The position after [n] steps of [s] each, wrapped every time. *)
Lemma iter_wrap (period s : R) (n : nat) (a : R) :
  (0 < period)%R -> (- period <= s <= period)%R -> (0 <= a < period)%R ->
  exists m : Z,
    Nat.iter n (fun x => Cosine.wrap period (x + s)) a
    = (a + INR n * s - IZR m * period)%R
    /\ (0 <= Nat.iter n (fun x => Cosine.wrap period (x + s)) a < period)%R.
Proof.
  intros Hp Hs Ha. induction n as [| n [m [E R]]].
  - exists 0%Z. cbn. split; lra.
  - rewrite Nat.iter_succ, S_INR.
    set (x := Nat.iter n (fun x => Cosine.wrap period (x + s)) a) in *.
    destruct (wrap_cases period (x + s)) as [[H F] | [[H [H' F]] | [H F]]];
      rewrite F, E.
    + exists (m + 1)%Z. rewrite plus_IZR. split; lra.
    + exists (m - 1)%Z. rewrite minus_IZR. split; lra.
    + exists m. split; lra.
Qed.

Lemma whole_turns_vanish (period : R) (k : Z) (a a' : R) :
  (0 < period)%R -> (0 <= a < period)%R -> (0 <= a' < period)%R ->
  (a' = a + IZR k * period)%R -> a' = a.
Proof.
  intros Hp Ha Ha' E.
  assert (K : k = 0%Z).
  { assert (L : (IZR k < 1)%R) by nra.
    assert (U : (-1 < IZR k)%R) by nra.
    apply lt_IZR in L. apply lt_IZR in U. lia. }
  subst k. lra.
Qed.

Lemma iter_wrap_whole_cycles (period s : R) (n : nat) (j : Z) (a : R) :
  (0 < period)%R -> (- period <= s <= period)%R -> (0 <= a < period)%R ->
  (INR n * s = IZR j * period)%R ->
  Nat.iter n (fun x => Cosine.wrap period (x + s)) a = a.
Proof.
  intros Hp Hs Ha Hn.
  destruct (iter_wrap period s n a Hp Hs Ha) as [m [E R]].
  apply (whole_turns_vanish period (j - m)); try assumption.
  rewrite E, minus_IZR. lra.
Qed.

Lemma sine_iter_step (self : Sine.LinearActuator) (direction : Z) (n : nat) :
  Nat.iter n (fun s => Sine.step s direction) self
  = Sine.set_degrees self
      (Nat.iter n
         (fun x => Cosine.wrap 360
                     (x + (if (direction =? 1)%Z then Sine.step_increment self
                           else - Sine.step_increment self)))
         (Sine.degrees self)).
Proof.
  induction n as [| n IH].
  - destruct self; reflexivity.
  - rewrite !Nat.iter_succ, IH.
    unfold Sine.step, Sine.set_degrees, Sine.DIRECTION_FORWARDS; cbn.
    f_equal. f_equal. destruct (direction =? 1)%Z; lra.
Qed.

(** X10: in sine/code.py, with the constructor's step increment 0.5 and
    from a position that is a whole number of half degrees in [0, 360)
    (as every position reached from the constructor is), 720 steps in
    one direction, or any multiple of 720, give back the actuator they
    started from.  On such positions the additions and subtractions of
    the code are exact on doubles. *)
Theorem sine_whole_turns_return
        (self : Sine.LinearActuator) (direction : Z) (k : Z) (turns : nat) :
  Sine.step_increment self = (5 / 10)%R ->
  Sine.degrees self = (IZR k / 2)%R ->
  (0 <= k < 720)%Z ->
  Nat.iter (720 * turns) (fun s => Sine.step s direction) self = self.
Proof.
  intros Hi Hd Hk.
  assert (Hr : (0 <= Sine.degrees self < 360)%R).
  { rewrite Hd. destruct Hk as [K0 K1].
    apply IZR_le in K0. apply IZR_lt in K1. lra. }
  assert (Hn : (INR (720 * turns) = 720 * IZR (Z.of_nat turns))%R).
  { rewrite mult_INR, (INR_IZR_INZ 720), (INR_IZR_INZ turns).
    change (Z.of_nat 720) with 720%Z. reflexivity. }
  rewrite sine_iter_step, Hi.
  destruct (direction =? 1)%Z.
  - rewrite (iter_wrap_whole_cycles 360 _ _ (Z.of_nat turns)); try lra.
    destruct self; reflexivity.
  - rewrite (iter_wrap_whole_cycles 360 _ _ (- Z.of_nat turns)); try lra.
    + destruct self; reflexivity.
    + rewrite opp_IZR. lra.
Qed.

Lemma sine_whole_turns_return_witness :
  Nat.iter (720 * 2) (fun s => Sine.step s (-1))
           (Sine.mkActuator true (IZR 181 / 2) (5 / 10) 1)
  = Sine.mkActuator true (IZR 181 / 2) (5 / 10) 1.
Proof.
  apply (sine_whole_turns_return _ (-1)%Z 181%Z 2%nat);
    [reflexivity | reflexivity | lia].
Defined.

(* ===================================================================== *)
(** ** Further properties: the demonstration loops                        *)
(* ===================================================================== *)

(** An invariant of the loop body that excludes exceptions holds after
    any number of iterations. *)
Lemma while_true_invariant {St : Type} (Inv : nat -> St -> Prop)
      (body : St -> IO (St * option exception)) :
  (forall k st b, Inv k st ->
                  snd (eval (body st) b) = None
                  /\ Inv (S k) (fst (eval (body st) b))) ->
  forall n k st b,
    Inv k st ->
    snd (eval (while_true n body st) b) = None
    /\ Inv (k + n)%nat (fst (eval (while_true n body st) b)).
Proof.
  intros Hbody n. induction n as [| n IH]; intros k st b Hk.
  - cbn. rewrite Nat.add_0_r. split; [reflexivity | exact Hk].
  - cbn [while_true]. rewrite eval_bind.
    destruct (Hbody k st b Hk) as [Hnone Hnext].
    rewrite Hnone. rewrite <- Nat.add_succ_comm. apply IH. exact Hnext.
Qed.

(** The direction after [k] iterations: reversed every [T] steps. *)
Lemma direction_schedule (T : Z) (k : nat) (d : Z) :
  (0 < T)%Z ->
  d = (if Z.even (Z.of_nat k / T) then 1 else -1)%Z ->
  (if (Z.of_nat k + 1) mod T =? 0 then d * -1 else d)%Z
  = (if Z.even (Z.of_nat (S k) / T) then 1 else -1)%Z.
Proof.
  intros HT Hd.
  rewrite Nat2Z.inj_succ. unfold Z.succ.
  set (s := Z.of_nat k) in *. assert (Hs : (0 <= s)%Z) by (subst s; lia).
  destruct ((s + 1) mod T =? 0)%Z eqn:E.
  - apply Z.eqb_eq in E.
    assert (Q : ((s + 1) / T = s / T + 1)%Z).
    { pose proof (Z.div_mod (s + 1) T) as D1. pose proof (Z.div_mod s T) as D2.
      pose proof (Z.mod_pos_bound s T HT) as B2.
      assert (Hq : ((s + 1) / T - s / T = 1 \/ (s + 1) / T - s / T <> 1)%Z) by lia.
      nia. }
    rewrite Q, Z.even_add. subst d.
    destruct (Z.even (s / T)); reflexivity.
  - apply Z.eqb_neq in E.
    assert (Q : ((s + 1) / T = s / T)%Z).
    { pose proof (Z.div_mod (s + 1) T) as D1. pose proof (Z.div_mod s T) as D2.
      pose proof (Z.mod_pos_bound s T HT) as B2.
      pose proof (Z.mod_pos_bound (s + 1) T HT) as B1.
      nia. }
    rewrite Q. exact Hd.
Qed.





Lemma PI_bounds : (31375 / 10000 < PI < 314375 / 100000)%R.
Proof.
  pose proof (PI_2_3_7_ineq 1) as H.
  unfold sum_f_R0, tg_alt, PI_2_3_7_tg, Ratan_seq in H.
  simpl in H.
  lra.
Qed.

Lemma round_real_down (x : R) (z : Z) :
  (IZR z <= x)%R -> (x - IZR z < 1 / 2)%R -> round_real x = z.
Proof.
  intros L U. unfold round_real.
  assert (E : Int_part x = z) by (symmetry; apply Int_part_spec; lra).
  rewrite E. destruct (Rlt_dec (x - IZR z) (1 / 2)); [reflexivity | contradiction].
Qed.

Section CosineLoop.

Variable S : Type.
Variable step : S -> Z -> S.
Variable update : S -> IO unit.
Variable T : Z.
Variable pause : Q.
Variable Good : S -> Prop.

Hypothesis T_positive : (0 < T)%Z.
Hypothesis step_good : forall s d, Good s -> Good (step s d).

Lemma cosine_body_keeps_invariant (k : nat) (st : S * Z * Z) (b : board) :
  cosine_loop_invariant S T Good k st ->
  snd (eval (cosine_body step update T pause st) b) = None
  /\ cosine_loop_invariant S T Good (Datatypes.S k)
       (fst (eval (cosine_body step update T pause st) b)).
Proof.
  destruct st as [[actuator direction] steps].
  intros (Hg & Hs & Hd).
  unfold cosine_body. rewrite eval_bind. cbv zeta.
  replace (T =? 0)%Z with false by (symmetry; apply Z.eqb_neq; lia).
  rewrite eval_bind, eval_ret. cbn [fst snd].
  split; [reflexivity |].
  unfold cosine_loop_invariant.
  split; [apply step_good; exact Hg |].
  split; [subst steps; lia |].
  subst steps. apply direction_schedule; assumption.
Qed.

Lemma cosine_loop_runs (n : nat) (actuator : S) (b : board) :
  Good actuator ->
  snd (eval (while_true n (cosine_body step update T pause)
                        (actuator, 1%Z, 0%Z)) b) = None
  /\ cosine_loop_invariant S T Good n
       (fst (eval (while_true n (cosine_body step update T pause)
                              (actuator, 1%Z, 0%Z)) b)).
Proof.
  intro Hg.
  apply (while_true_invariant (cosine_loop_invariant S T Good) _
           cosine_body_keeps_invariant n 0%nat).
  unfold cosine_loop_invariant. change (Z.of_nat 0) with 0%Z.
  rewrite Z.div_0_l by lia. repeat split. exact Hg.
Qed.

End CosineLoop.

Lemma sine_target_cycle_value (actuator : Sine.LinearActuator) :
  Sine.step_increment actuator = (5 / 10)%R -> sine_target_cycle actuator = 1080%Z.
Proof.
  intro H. unfold sine_target_cycle. rewrite H.
  apply round_real_down; lra.
Qed.

Lemma angle_target_cycle_value (actuator : Angle.LinearActuator) :
  Angle.step_increment actuator = (5 / 100)%R -> angle_target_cycle actuator = 251%Z.
Proof.
  intro H. unfold angle_target_cycle. rewrite H.
  pose proof PI_bounds.
  apply round_real_down; lra.
Qed.

(** X12: the demonstration loop of sine/code.py never reaches its
    [except] clause.  Its reversal period is 1080 steps (one turn and a
    half); after any number n of iterations, from any board, nothing
    was raised, [steps] is n, the position lies in [0, 360) and the
    direction is 1 when n / 1080 is even and -1 when it is odd; and when
    the loop is left the [finally] clause leaves the actuator stopped
    with all six outputs off. *)
Theorem sine_demo_loop (n : nat) (b : board) :
  sine_target_cycle (eval Sine.init b) = 1080%Z
  /\ snd (eval (sine_loop n) b) = None
  /\ snd (fst (eval (sine_loop n) b)) = Z.of_nat n
  /\ snd (fst (fst (eval (sine_loop n) b)))
     = (if Z.even (Z.of_nat n / 1080) then 1 else -1)%Z
  /\ (0 <= Sine.degrees (fst (fst (fst (eval (sine_loop n) b)))) < 360)%R
  /\ Sine.running (eval (sine_main n) b) = false
  /\ all_off (exec (sine_main n) b).
Proof.
  assert (T : sine_target_cycle (eval Sine.init b) = 1080%Z)
    by (apply sine_target_cycle_value; reflexivity).
  split; [exact T |].
  set (Good := fun s : Sine.LinearActuator =>
                 Sine.step_increment s = (5 / 10)%R
                 /\ (0 <= Sine.degrees s < 360)%R).
  assert (L : snd (eval (sine_loop n) b) = None
              /\ cosine_loop_invariant Sine.LinearActuator 1080 Good n
                   (fst (eval (sine_loop n) b))).
  { unfold sine_loop. rewrite !eval_bind.
    change (sine_target_cycle (eval (Sine.start (eval Sine.init b))
                                    (exec Sine.init b)))
      with (sine_target_cycle (eval Sine.init b)).
    rewrite T.
    apply cosine_loop_runs; [lia | |].
    - intros s d [Hi Hp]. split; [exact Hi |].
      unfold Sine.step; cbn [Sine.degrees Sine.set_degrees].
      rewrite Hi.
      apply (wrap_after_move 360 (Sine.degrees s) (5 / 10)
               (d =? Sine.DIRECTION_FORWARDS)%Z); lra.
    - split; cbn; [reflexivity | lra]. }
  destruct L as [Hnone Hinv].
  split; [exact Hnone |].
  destruct (fst (eval (sine_loop n) b)) as [[actuator direction] steps] eqn:E.
  cbn [fst snd]. destruct Hinv as ([_ Hp] & Hs & Hd).
  repeat (split; [assumption |]).
  unfold sine_main. rewrite eval_bind, exec_bind.
  destruct (sine_stop_spec (fst (fst (fst (eval (sine_loop n) b))))
                           (exec (sine_loop n) b)) as [Es Hoff].
  rewrite Es. split; [reflexivity | exact Hoff].
Qed.

(** X13: the demonstration loop of code.py never reaches its [except]
    clause.  Its reversal period, round(2 * (2 * pi / 0.05)), is 251
    steps; after any number n of iterations, from any board, nothing
    was raised, [steps] is n, the angle lies in the closed range
    [0, 2 * pi] (the end 2 * pi is reached on doubles, at iteration
    502) and the direction is 1 when n / 251 is even and -1 when it is
    odd; and when the loop is left the [finally] clause leaves the
    actuator stopped with all six outputs off. *)
Theorem angle_demo_loop (n : nat) (b : board) :
  angle_target_cycle (eval Angle.init b) = 251%Z
  /\ snd (eval (angle_loop n) b) = None
  /\ snd (fst (eval (angle_loop n) b)) = Z.of_nat n
  /\ snd (fst (fst (eval (angle_loop n) b)))
     = (if Z.even (Z.of_nat n / 251) then 1 else -1)%Z
  /\ (0 <= Angle.angle (fst (fst (fst (eval (angle_loop n) b)))) <= 2 * PI)%R
  /\ Angle.running (eval (angle_main n) b) = false
  /\ all_off (exec (angle_main n) b).
Proof.
  assert (T : angle_target_cycle (eval Angle.init b) = 251%Z)
    by (apply angle_target_cycle_value; reflexivity).
  split; [exact T |].
  pose proof two_PI_bounds as B2.
  set (Good := fun s : Angle.LinearActuator =>
                 Angle.step_increment s = (5 / 100)%R
                 /\ (0 <= Angle.angle s <= 2 * PI)%R).
  assert (L : snd (eval (angle_loop n) b) = None
              /\ cosine_loop_invariant Angle.LinearActuator 251 Good n
                   (fst (eval (angle_loop n) b))).
  { unfold angle_loop. rewrite !eval_bind.
    change (angle_target_cycle (eval (Angle.start (eval Angle.init b))
                                     (exec Angle.init b)))
      with (angle_target_cycle (eval Angle.init b)).
    rewrite T.
    apply cosine_loop_runs; [lia | |].
    - intros s d [Hi Hp]. split; [exact Hi |].
      unfold Angle.step; cbn [Angle.angle Angle.set_angle].
      rewrite Hi.
      apply (wrap_after_move_closed (2 * PI) (Angle.angle s) (5 / 100)
               (0 <? d)%Z); lra.
    - split; cbn; [reflexivity | lra]. }
  destruct L as [Hnone Hinv].
  split; [exact Hnone |].
  destruct (fst (eval (angle_loop n) b)) as [[actuator direction] steps] eqn:E.
  cbn [fst snd]. destruct Hinv as ([_ Hp] & Hs & Hd).
  repeat (split; [assumption |]).
  unfold angle_main. rewrite eval_bind, exec_bind.
  destruct (angle_stop_spec (fst (fst (fst (eval (angle_loop n) b))))
                            (exec (angle_loop n) b)) as [Es Hoff].
  rewrite Es. split; [reflexivity | exact Hoff].
Qed.
